(** * swarm-control: the game connection core

    A shallow embedding of the [GameConnection] class (the connection and
    correlation core of the redemption bridge) together with the catalog
    types of [common/types.ts] it reads.

    The class is single-threaded and event driven.  Its fields become the
    first group of fields of [State]; the pieces of the JavaScript
    environment it talks to (the sockets' [readyState], the [setInterval]
    table, the promises handed out by [redeem], the [setIngame] sink and
    the bytes accepted by the transport) become the second group.  Each
    method is a function on [State]; what a method reads from the outside
    at the moment it runs ([Date.now()], [uuid()], the error the transport
    passes to the completion callback of [send]) arrives in an [Env].

    Console output is not part of the model.  The completion callback of
    [socket.send] is run in the same step as the call. *)

From Stdlib Require Import ZArith.
From stdpp Require Import gmap strings list fin_maps.

(** ** Catalog types ([common/types.ts]) *)

Module LiteralTypes.
Inductive t := String | Integer | Float | Boolean.
Definition value (x : t) : Z :=
  match x with String => 0 | Integer => 1 | Float => 2 | Boolean => 3 end%Z.
End LiteralTypes.

Module AnnounceType.
Inductive t := DefaultAnnounce | DefaultSilent | AlwaysAnnounce | AlwaysSilent.
(** A [const enum] without initialisers numbers its members from 0. *)
Definition value (x : t) : Z :=
  match x with
  | DefaultAnnounce => 0
  | DefaultSilent => 1
  | AlwaysAnnounce => 2
  | AlwaysSilent => 3
  end%Z.
End AnnounceType.

Inductive ParamType :=
| Literal (l : LiteralTypes.t)
| EnumTypeName (name : string).

Record RedeemParameter := {
  param_name : string;
  param_title : option string;
  param_description : option string;
  param_type : ParamType;
  param_required : option bool;
}.

Record Redeem := {
  redeem_id : string;
  redeem_title : string;
  redeem_description : string;
  redeem_args : list RedeemParameter;
  redeem_announce : option AnnounceType.t;
  redeem_moderated : option bool;
  redeem_image : string;
  redeem_price : Z;
  redeem_sku : string;
  redeem_disabled : option bool;
  redeem_hidden : option bool;
}.

Record Cart := {
  cart_version : Z;
  cart_id : string;
  cart_sku : string;
  cart_args : gmap string string;
  cart_announce : bool;
}.

(** ** Protocol messages *)

(** Modelled from the spec: the [MessageType] enum of [./messages] is not
    among the sources; these are the message kinds the spec's data model
    lists, with [Other] for every further member. *)
Module MessageType.
Inductive t :=
| Hello | HelloBack | Ping | Pong | Redeem | Result | IngameStateChanged
| Other (tag : Z).

Definition is_Pong (x : t) : bool :=
  match x with Pong => true | _ => false end.
End MessageType.

(** Modelled from the spec: [TwitchUser] of [./messages] is not among the
    sources; it is the identity attached to a redeem request. *)
Record TwitchUser := {
  user_id : string;
  user_login : string;
  user_displayName : string;
}.

(** Modelled from the spec: [CommandInvocationSource] of
    [./messages.server] is not among the sources; [redeem] only ever uses
    its member [Swarm]. *)
Inductive CommandInvocationSource := Swarm | Dev.

(** The value of the [announce] field of an outbound redeem message: the
    boolean [true] or the number of an [AnnounceType]. *)
Inductive AnnounceField :=
| AnnounceBool (b : bool)
| AnnounceNum (n : Z).

(** JavaScript truthiness of such a value. *)
Definition truthy (a : AnnounceField) : bool :=
  match a with
  | AnnounceBool b => b
  | AnnounceNum n => negb (n =? 0)%Z
  end.

(** An [AnnounceType] read as a JavaScript value is its number. *)
Definition announceValue (a : AnnounceType.t) : AnnounceField :=
  AnnounceNum (AnnounceType.value a).

(** [a ?? d] *)
Definition nullish {A} (a : option A) (d : A) : A :=
  match a with Some x => x | None => d end.

(** What an outbound message carries besides the three base fields. *)
Inductive ServerBody :=
| BodyPlain
| BodyHelloBack (allowed : bool)
| BodyRedeem (source : CommandInvocationSource) (command title : string)
             (announce : AnnounceField) (args : gmap string string)
             (user : TwitchUser).

(** Modelled from the spec: [ServerMessage] and [RedeemMessage] of
    [./messages.server] are not among the sources; the fields are those
    the object literals of [processMessage], [makeMessage] and [redeem]
    build. *)
Record ServerMessage := {
  messageType : MessageType.t;
  guid : string;
  timestamp : Z;
  body : ServerBody;
}.

(** Modelled from the spec: [ResultMessage] of [./messages.game] is not
    among the sources; the spec gives it [guid], [success] and a payload. *)
Record ResultMessage := {
  res_guid : string;
  res_timestamp : Z;
  res_success : bool;
  res_payload : string;
}.

(** Modelled from the spec: [GameMessage] of [./messages.game] is not
    among the sources; a tagged union over the inbound kinds, [version]
    and [ingame] being the fields [processMessage] reads. *)
Inductive GameMessage :=
| GHello (g : string) (ts : Z) (version : string)
| GPing (g : string) (ts : Z)
| GResult (r : ResultMessage)
| GIngameStateChanged (g : string) (ts : Z) (ingame : bool)
| GOther (tag : Z) (g : string) (ts : Z).

Definition gameMessageType (m : GameMessage) : MessageType.t :=
  match m with
  | GHello _ _ _ => MessageType.Hello
  | GPing _ _ => MessageType.Ping
  | GResult _ => MessageType.Result
  | GIngameStateChanged _ _ _ => MessageType.IngameStateChanged
  | GOther tag _ _ => MessageType.Other tag
  end.

(** ** Promises *)

Record JsError := { err_name : string; err_message : string }.

(** What a promise of this class is rejected with: a string, or the
    [Error] the transport reported. *)
Inductive Reason :=
| ReasonText (s : string)
| ReasonError (e : JsError).

Inductive Settled :=
| Pending
| Fulfilled (r : ResultMessage)
| Rejected (e : Reason).

Definition is_pending (s : Settled) : bool :=
  match s with Pending => true | _ => false end.

(** A promise is settled once: later calls of [resolve] or [reject] do
    nothing. *)
Definition settle (v old : Settled) : Settled :=
  if is_pending old then v else old.

(** One call of [redeem]: the timer of the first racer, the promise of
    the second one, and the promise [Promise.race] returned.  The race
    adopts whichever racer settles first. *)
Record RedeemCall := {
  deadline : Z;
  timerFired : bool;
  inner : Settled;
  outcome : Settled;
}.

(** The outcome of [sendMessage]'s promise. *)
Inductive SendOutcome :=
| Sent
| SendRejected (e : Reason).

(** ** Constants *)

Definition VERSION : string := "0.1.0".
Definition resultWaitTimeout : Z := 10000.
Definition resendInterval : Z := 500.

Definition NotConnected : string :=
  "Tried to send message without a connected socket".
Definition HandshakeIncomplete : string :=
  "Tried to send message before handshake was complete".
Definition MissingTransactionId : string :=
  "Tried to redeem without transaction ID".
Definition DuplicateRedeem (g : string) : string :=
  String.append "Redeeming " (String.append g " more than once").
Definition TimedOut : string :=
  "Timed out waiting for result. The redeem may still go through later, contact Alexejhero if it doesn't.".

(** ** State *)

Inductive ReadyState := CONNECTING | OPEN | CLOSING | CLOSED.

Global Instance ReadyState_eq_dec : EqDecision ReadyState.
Proof. solve_decision. Defined.

Record State := {
  (* fields of the GameConnection object *)
  handshake : bool;
  socket : option nat;
  unsentQueue : list ServerMessage;
  outstandingRedeems : gmap string ServerMessage;
  resultHandlers : gmap string nat;
  resendIntervalHandle : option positive;
  (* the environment *)
  readyState : gmap nat ReadyState;
  listening : gset nat;
  intervals : gmap positive Z;
  nextTimer : positive;
  ingame : bool;
  wire : list (nat * ServerMessage);
  calls : list RedeemCall;
}.

(** A freshly constructed connection in an environment with no timers. *)
Definition initial (rs : gmap nat ReadyState) : State :=
  {| handshake := false; socket := None; unsentQueue := [];
     outstandingRedeems := ∅; resultHandlers := ∅;
     resendIntervalHandle := None;
     readyState := rs; listening := ∅; intervals := ∅; nextTimer := 1%positive;
     ingame := false; wire := []; calls := [] |}.

(** What a method reads from outside while it runs. *)
Record Env := {
  env_now : Z;
  env_uuid : string;
  env_sendError : option JsError;
}.

Section Setters.
Variable st : State.

Definition set_handshake (b : bool) : State :=
  {| handshake := b; socket := socket st; unsentQueue := unsentQueue st;
     outstandingRedeems := outstandingRedeems st;
     resultHandlers := resultHandlers st;
     resendIntervalHandle := resendIntervalHandle st;
     readyState := readyState st; listening := listening st;
     intervals := intervals st; nextTimer := nextTimer st;
     ingame := ingame st; wire := wire st; calls := calls st |}.

Definition set_socket (s : option nat) : State :=
  {| handshake := handshake st; socket := s; unsentQueue := unsentQueue st;
     outstandingRedeems := outstandingRedeems st;
     resultHandlers := resultHandlers st;
     resendIntervalHandle := resendIntervalHandle st;
     readyState := readyState st; listening := listening st;
     intervals := intervals st; nextTimer := nextTimer st;
     ingame := ingame st; wire := wire st; calls := calls st |}.

Definition set_unsentQueue (q : list ServerMessage) : State :=
  {| handshake := handshake st; socket := socket st; unsentQueue := q;
     outstandingRedeems := outstandingRedeems st;
     resultHandlers := resultHandlers st;
     resendIntervalHandle := resendIntervalHandle st;
     readyState := readyState st; listening := listening st;
     intervals := intervals st; nextTimer := nextTimer st;
     ingame := ingame st; wire := wire st; calls := calls st |}.

Definition set_maps (o : gmap string ServerMessage) (h : gmap string nat) : State :=
  {| handshake := handshake st; socket := socket st;
     unsentQueue := unsentQueue st;
     outstandingRedeems := o; resultHandlers := h;
     resendIntervalHandle := resendIntervalHandle st;
     readyState := readyState st; listening := listening st;
     intervals := intervals st; nextTimer := nextTimer st;
     ingame := ingame st; wire := wire st; calls := calls st |}.

Definition set_readyState (rs : gmap nat ReadyState) : State :=
  {| handshake := handshake st; socket := socket st;
     unsentQueue := unsentQueue st;
     outstandingRedeems := outstandingRedeems st;
     resultHandlers := resultHandlers st;
     resendIntervalHandle := resendIntervalHandle st;
     readyState := rs; listening := listening st;
     intervals := intervals st; nextTimer := nextTimer st;
     ingame := ingame st; wire := wire st; calls := calls st |}.

Definition set_listening (l : gset nat) : State :=
  {| handshake := handshake st; socket := socket st;
     unsentQueue := unsentQueue st;
     outstandingRedeems := outstandingRedeems st;
     resultHandlers := resultHandlers st;
     resendIntervalHandle := resendIntervalHandle st;
     readyState := readyState st; listening := l;
     intervals := intervals st; nextTimer := nextTimer st;
     ingame := ingame st; wire := wire st; calls := calls st |}.

Definition set_timers (h : option positive) (iv : gmap positive Z)
    (next : positive) : State :=
  {| handshake := handshake st; socket := socket st;
     unsentQueue := unsentQueue st;
     outstandingRedeems := outstandingRedeems st;
     resultHandlers := resultHandlers st;
     resendIntervalHandle := h;
     readyState := readyState st; listening := listening st;
     intervals := iv; nextTimer := next;
     ingame := ingame st; wire := wire st; calls := calls st |}.

Definition set_ingame (b : bool) : State :=
  {| handshake := handshake st; socket := socket st;
     unsentQueue := unsentQueue st;
     outstandingRedeems := outstandingRedeems st;
     resultHandlers := resultHandlers st;
     resendIntervalHandle := resendIntervalHandle st;
     readyState := readyState st; listening := listening st;
     intervals := intervals st; nextTimer := nextTimer st;
     ingame := b; wire := wire st; calls := calls st |}.

Definition set_wire (w : list (nat * ServerMessage)) : State :=
  {| handshake := handshake st; socket := socket st;
     unsentQueue := unsentQueue st;
     outstandingRedeems := outstandingRedeems st;
     resultHandlers := resultHandlers st;
     resendIntervalHandle := resendIntervalHandle st;
     readyState := readyState st; listening := listening st;
     intervals := intervals st; nextTimer := nextTimer st;
     ingame := ingame st; wire := w; calls := calls st |}.

Definition set_calls (c : list RedeemCall) : State :=
  {| handshake := handshake st; socket := socket st;
     unsentQueue := unsentQueue st;
     outstandingRedeems := outstandingRedeems st;
     resultHandlers := resultHandlers st;
     resendIntervalHandle := resendIntervalHandle st;
     readyState := readyState st; listening := listening st;
     intervals := intervals st; nextTimer := nextTimer st;
     ingame := ingame st; wire := wire st; calls := c |}.
End Setters.

(** ** Methods of [GameConnection] *)

(** [this.socket?.readyState == ServerWS.OPEN] *)
Definition isConnected (st : State) : bool :=
  match socket st with
  | Some ws => bool_decide (readyState st !! ws = Some OPEN)
  | None => false
  end.

(** [ws.close()] on an open socket starts the closing handshake; the
    [close] event follows later. *)
Definition closeSocket (ws : nat) (st : State) : State :=
  set_readyState st (<[ws := CLOSING]> (readyState st)).

(** [setInterval(f, period)]: a fresh numeric handle. *)
Definition setInterval (period : Z) (st : State) : State :=
  set_timers st (Some (nextTimer st))
             (<[nextTimer st := period]> (intervals st))
             (Pos.succ (nextTimer st)).

(** [clearInterval(h)] *)
Definition clearInterval (h : positive) (st : State) : State :=
  set_timers st (resendIntervalHandle st) (delete h (intervals st))
             (nextTimer st).

Definition setIngame (b : bool) (st : State) : State := set_ingame st b.

Definition setSocket (ws : option nat) (st : State) : State :=
  let st1 :=
    if isConnected st
    then match socket st with Some old => closeSocket old st | None => st end
    else st in
  let st2 := set_socket st1 ws in
  match ws with
  | None => st2
  | Some w =>
      let st3 := set_handshake st2 false in
      let st4 := setInterval resendInterval st3 in
      set_listening st4 ({[ w ]} ∪ listening st4)
  end.

Definition makeMessage (env : Env) (type : MessageType.t)
    (g : option string) : ServerMessage :=
  {| messageType := type;
     guid := nullish g (env_uuid env);
     timestamp := env_now env;
     body := BodyPlain |}.

Definition msgSendError (msg : ServerMessage) (st : State) : State :=
  set_unsentQueue st (unsentQueue st ++ [msg]).

Definition sendMessage (env : Env) (msg : ServerMessage) (st : State)
    : State * SendOutcome :=
  if negb (isConnected st) then
    (msgSendError msg st, SendRejected (ReasonText NotConnected))
  else if negb (handshake st) && negb (MessageType.is_Pong (messageType msg)) then
    (msgSendError msg st, SendRejected (ReasonText HandshakeIncomplete))
  else
    match env_sendError env with
    | Some err => (msgSendError msg st, SendRejected (ReasonError err))
    | None =>
        match socket st with
        | Some ws => (set_wire st (wire st ++ [(ws, msg)]), Sent)
        | None => (st, Sent)
        end
    end.

(** [resolve(r)] on the second racer: it settles if it was pending, and
    then the race settles with it if the race was pending. *)
Definition resolved (r : ResultMessage) (call : RedeemCall) : RedeemCall :=
  {| deadline := deadline call; timerFired := timerFired call;
     inner := settle (Fulfilled r) (inner call);
     outcome := if is_pending (inner call)
                then settle (Fulfilled r) (outcome call)
                else outcome call |}.

(** The first racer's timer fires: it rejects, and the race with it if
    the race was pending. *)
Definition timedOut (call : RedeemCall) : RedeemCall :=
  {| deadline := deadline call; timerFired := true;
     inner := inner call;
     outcome := settle (Rejected (ReasonText TimedOut)) (outcome call) |}.

(** [resolve(msg)] of the promise built in call [c] of [redeem]. *)
Definition resolveCall (c : nat) (r : ResultMessage) (st : State) : State :=
  match calls st !! c with
  | Some call => set_calls st (<[c := resolved r call]> (calls st))
  | None => st
  end.

Definition processMessage (env : Env) (msg : GameMessage) (st : State) : State :=
  match msg with
  | GHello _ _ version =>
      let st1 := set_handshake st true in
      let m := makeMessage env MessageType.HelloBack None in
      let reply :=
        {| messageType := messageType m; guid := guid m;
           timestamp := timestamp m;
           body := BodyHelloBack (String.eqb version VERSION) |} in
      fst (sendMessage env reply st1)
  | GPing _ _ =>
      fst (sendMessage env (makeMessage env MessageType.Pong None) st)
  | GResult r =>
      let st1 :=
        match resultHandlers st !! res_guid r with
        | None => st
        | Some c => resolveCall c r st
        end in
      set_maps st1 (delete (res_guid r) (outstandingRedeems st1))
                   (delete (res_guid r) (resultHandlers st1))
  | GIngameStateChanged _ _ b => setIngame b st
  | GOther _ _ _ => st
  end.

(** The first racer's [setTimeout] callback. *)
Definition resultTimeout (c : nat) (st : State) : State :=
  match calls st !! c with
  | Some call => set_calls st (<[c := timedOut call]> (calls st))
  | None => st
  end.

(** A promise of the second racer rejected inside its executor. *)
Definition rejectedCall (env : Env) (e : string) : RedeemCall :=
  {| deadline := (env_now env + resultWaitTimeout)%Z; timerFired := false;
     inner := Rejected (ReasonText e); outcome := Rejected (ReasonText e) |}.

Definition pendingCall (env : Env) : RedeemCall :=
  {| deadline := (env_now env + resultWaitTimeout)%Z; timerFired := false;
     inner := Pending; outcome := Pending |}.

Definition redeemMessage (env : Env) (r : Redeem) (cart : Cart)
    (user : TwitchUser) (transactionId : string) : ServerMessage :=
  let m := makeMessage env MessageType.Redeem None in
  {| messageType := messageType m;
     guid := transactionId;
     timestamp := timestamp m;
     body := BodyRedeem Swarm (redeem_id r) (redeem_title r)
               (nullish (announceValue <$> redeem_announce r) (AnnounceBool true))
               (cart_args cart) user |}.

(** [redeem]: the new state and the index of this call's promise. *)
Definition redeem (env : Env) (r : Redeem) (cart : Cart) (user : TwitchUser)
    (transactionId : string) (st : State) : State * nat :=
  let c := length (calls st) in
  if String.eqb transactionId EmptyString then
    (set_calls st (calls st ++ [rejectedCall env MissingTransactionId]), c)
  else
    let msg := redeemMessage env r cart user transactionId in
    match outstandingRedeems st !! guid msg with
    | Some _ =>
        (set_calls st (calls st ++ [rejectedCall env (DuplicateRedeem (guid msg))]), c)
    | None =>
        let st1 := set_calls st (calls st ++ [pendingCall env]) in
        let st2 := set_maps st1 (<[guid msg := msg]> (outstandingRedeems st1))
                                (<[guid msg := c]> (resultHandlers st1)) in
        (fst (sendMessage env msg st2), c)
    end.

Definition tryResendFromQueue (env : Env) (st : State) : State :=
  match unsentQueue st with
  | [] => st
  | msg :: rest => fst (sendMessage env msg (set_unsentQueue st rest))
  end.

Definition stressTestSetHandshake (b : bool) (st : State) : State :=
  set_handshake st b.

(** ** The listeners [setSocket] installs, and the event loop *)

(** The [close] listener. *)
Definition onClose (st : State) : State :=
  let st1 := setIngame false st in
  match resendIntervalHandle st1 with
  | Some h => clearInterval h st1
  | None => st1
  end.

Inductive Event :=
| EvSetSocket (ws : option nat)
| EvMessage (ws : nat) (msg : GameMessage)
| EvUnparsable (ws : nat)
| EvClose (ws : nat)
| EvError (ws : nat)
| EvTick (h : positive)
| EvRedeem (r : Redeem) (cart : Cart) (user : TwitchUser) (transactionId : string)
| EvResultTimeout (c : nat)
| EvSend (msg : ServerMessage)
| EvStressTestSetHandshake (b : bool).

(** One turn of the event loop.  Socket events reach the connection only
    through the listeners of a socket that was bound; an interval ticks
    only while it is in the timer table; the timer of a [redeem] call
    fires once, not before its deadline. *)
Definition step (env : Env) (ev : Event) (st : State) : State :=
  match ev with
  | EvSetSocket ws => setSocket ws st
  | EvMessage ws msg =>
      if bool_decide (ws ∈ listening st) then processMessage env msg st else st
  | EvUnparsable _ => st
  | EvClose ws =>
      let st1 := set_readyState st (<[ws := CLOSED]> (readyState st)) in
      if bool_decide (ws ∈ listening st) then onClose st1 else st1
  | EvError _ => st
  | EvTick h =>
      match intervals st !! h with
      | Some _ => tryResendFromQueue env st
      | None => st
      end
  | EvRedeem r cart user transactionId =>
      fst (redeem env r cart user transactionId st)
  | EvResultTimeout c =>
      match calls st !! c with
      | Some call =>
          if negb (timerFired call) && (deadline call <=? env_now env)%Z
          then resultTimeout c st else st
      | None => st
      end
  | EvSend msg => fst (sendMessage env msg st)
  | EvStressTestSetHandshake b => stressTestSetHandshake b st
  end.

Fixpoint run (evs : list (Env * Event)) (st : State) : State :=
  match evs with
  | [] => st
  | (env, ev) :: rest => run rest (step env ev st)
  end.

(** The [announce] field of an outbound message, if it has one. *)
Definition announceOf (m : ServerMessage) : option AnnounceField :=
  match body m with
  | BodyRedeem _ _ _ a _ _ => Some a
  | _ => None
  end.

(** The [allowed] field of an outbound message, if it has one. *)
Definition allowedOf (m : ServerMessage) : option bool :=
  match body m with
  | BodyHelloBack a => Some a
  | _ => None
  end.

(** The reply [processMessage] builds for a [Hello] of version [X]. *)
Definition helloBack (env : Env) (X : string) : ServerMessage :=
  {| messageType := MessageType.HelloBack; guid := env_uuid env;
     timestamp := env_now env; body := BodyHelloBack (String.eqb X VERSION) |}.

Definition pong (env : Env) : ServerMessage :=
  makeMessage env MessageType.Pong None.

(** ** Notions used in the statements *)

(** Every registered result handler belongs to a call that was made. *)
Definition wf (st : State) : Prop :=
  ∀ g c, resultHandlers st !! g = Some c → c < length (calls st).

Definition outcomeOf (c : nat) (st : State) : option Settled :=
  outcome <$> calls st !! c.

(** The correlation state: both maps and the promises handed out. *)
Definition core (st : State)
    : gmap string ServerMessage * gmap string nat * list RedeemCall :=
  (outstandingRedeems st, resultHandlers st, calls st).

(** [ev] does not deliver a [Result] message for [id]. *)
Definition noResultFor (id : string) (ev : Event) : bool :=
  match ev with
  | EvMessage _ (GResult r) => negb (String.eqb (res_guid r) id)
  | _ => true
  end.

(** [ev] is not the timer of call [c]. *)
Definition noTimeoutOf (c : nat) (ev : Event) : bool :=
  match ev with
  | EvResultTimeout c' => negb (c' =? c)
  | _ => true
  end.

(** Transaction [id] is registered, its handler being that of call [c]. *)
Definition registered (id : string) (c : nat) (st : State) : Prop :=
  resultHandlers st !! id = Some c ∧ is_Some (outstandingRedeems st !! id).

(** Call [c], made under [env0], is registered under [id] and under no
    other key, and is as [redeem] created it: neither racer has settled
    and the timer has not fired. *)
Definition awaiting (id : string) (c : nat) (env0 : Env) (st : State) : Prop :=
  wf st ∧ registered id c st
  ∧ (∀ g, resultHandlers st !! g = Some c → g = id)
  ∧ calls st !! c = Some (pendingCall env0).

(** The promise returned by call [c] has settled as [v]. *)
Definition settledAs (c : nat) (v : Settled) (st : State) : Prop :=
  outcomeOf c st = Some v ∧ v ≠ Pending.

(** No event of [evs] delivers a [Result] for [id]. *)
Definition silentFor (id : string) (evs : list (Env * Event)) : Prop :=
  Forall (λ ee, noResultFor id ee.2 = true) evs.

(** No event of [evs] is the timer of call [c]. *)
Definition untimed (c : nat) (evs : list (Env * Event)) : Prop :=
  Forall (λ ee, noTimeoutOf c ee.2 = true) evs.

(** ** Notions used in the further properties *)

(** The connection state: handshake flag, bound socket, socket states. *)
Definition link (st : State) : bool * option nat * gmap nat ReadyState :=
  (handshake st, socket st, readyState st).

(** Both correlation maps have the same keys. *)
Definition sameKeys (st : State) : Prop :=
  ∀ g, is_Some (outstandingRedeems st !! g) ↔ is_Some (resultHandlers st !! g).

(** Every outstanding record is a redeem message filed under its own,
    non-empty guid. *)
Definition keyedByGuid (st : State) : Prop :=
  ∀ g m, outstandingRedeems st !! g = Some m →
         guid m = g ∧ messageType m = MessageType.Redeem ∧ g ≠ EmptyString.


(** The promise [Promise.race] returned agrees with its two racers. *)
Definition raceSettled (call : RedeemCall) : Prop :=
  match outcome call with
  | Pending => inner call = Pending ∧ timerFired call = false
  | Fulfilled r => inner call = Fulfilled r
  | Rejected e =>
      inner call = Rejected e
      ∨ (e = ReasonText TimedOut ∧ timerFired call = true)
  end.

(** Every running interval has the resend period and a handle below the
    next one to be handed out, as has the handle the connection holds. *)
Definition timersFresh (st : State) : Prop :=
  (∀ h p, intervals st !! h = Some p →
          p = resendInterval ∧ (h < nextTimer st)%positive)
  ∧ (∀ h, resendIntervalHandle st = Some h → (h < nextTimer st)%positive).

(** The timer state: held handle, running intervals, next handle. *)
Definition timersOf (st : State) : option positive * gmap positive Z * positive :=
  (resendIntervalHandle st, intervals st, nextTimer st).


(** The events that can set the handshake flag. *)
Definition grantsHandshake (ev : Event) : bool :=
  match ev with
  | EvMessage _ (GHello _ _ _) => true
  | EvStressTestSetHandshake b => b
  | _ => false
  end.

(** The events that can clear the handshake flag. *)
Definition clearsHandshake (ev : Event) : bool :=
  match ev with
  | EvSetSocket (Some _) => true
  | EvStressTestSetHandshake b => negb b
  | _ => false
  end.

(** The events that can reach the in-game sink. *)
Definition reportsIngame (ev : Event) : bool :=
  match ev with
  | EvMessage _ (GIngameStateChanged _ _ _) => true
  | EvClose _ => true
  | _ => false
  end.

Definition isPong (m : ServerMessage) : bool :=
  MessageType.is_Pong (messageType m).

(** [envs] successive ticks of interval [h]. *)
Definition ticks (h : positive) (envs : list Env) : list (Env * Event) :=
  map (λ env, (env, EvTick h)) envs.

(** ** Sample inputs *)

Definition env_ok : Env :=
  {| env_now := 1000; env_uuid := "5f0c"; env_sendError := None |}.

Definition env_late : Env :=
  {| env_now := 11000; env_uuid := "77aa"; env_sendError := None |}.

Definition epipe : JsError :=
  {| err_name := "Error"; err_message := "write EPIPE" |}.

Definition env_fail : Env :=
  {| env_now := 1000; env_uuid := "5f0c"; env_sendError := Some epipe |}.

(** One open socket, number 1, not yet bound. *)
Definition st_fresh : State := initial {[ 1 := OPEN ]}.

(** Socket 1 bound, handshake not done. *)
Definition st_bound : State := setSocket (Some 1) st_fresh.

(** Socket 1 bound and the game has said hello. *)
Definition st_ready : State :=
  processMessage env_ok (GHello "a1" 990 "0.1.0") st_bound.

Definition user0 : TwitchUser :=
  {| user_id := "42"; user_login := "viewer"; user_displayName := "Viewer" |}.

Definition cart0 : Cart :=
  {| cart_version := 1; cart_id := "say"; cart_sku := "sku-say";
     cart_args := {[ "text" := "hi" ]}; cart_announce := true |}.

Definition redeem0 (a : option AnnounceType.t) : Redeem :=
  {| redeem_id := "say"; redeem_title := "Say"; redeem_description := "Say it";
     redeem_args := []; redeem_announce := a; redeem_moderated := None;
     redeem_image := "say.png"; redeem_price := 5; redeem_sku := "sku-say";
     redeem_disabled := None; redeem_hidden := None |}.

Definition result0 : ResultMessage :=
  {| res_guid := "tx-1"; res_timestamp := 1500; res_success := true;
     res_payload := "ok" |}.

Definition msg1 : ServerMessage :=
  redeemMessage env_ok (redeem0 None) cart0 user0 "tx-1".

Definition msg2 : ServerMessage :=
  redeemMessage env_ok (redeem0 None) cart0 user0 "tx-2".

(** * Properties *)

(** ** Sending *)

Lemma isConnected_socket st :
  isConnected st = true →
  ∃ ws, socket st = Some ws ∧ readyState st !! ws = Some OPEN.
Proof.
  unfold isConnected. destruct (socket st) as [ws|]; [|done].
  intros H%bool_decide_eq_true. eauto.
Qed.

(** The four ways [sendMessage] can end, by the three tests it makes. *)
Lemma sendMessage_cases env msg st :
  (isConnected st = false ∧
   sendMessage env msg st =
     (msgSendError msg st, SendRejected (ReasonText NotConnected)))
  ∨ (isConnected st = true ∧ handshake st = false ∧
     MessageType.is_Pong (messageType msg) = false ∧
     sendMessage env msg st =
       (msgSendError msg st, SendRejected (ReasonText HandshakeIncomplete)))
  ∨ (isConnected st = true ∧
     (handshake st = true ∨ MessageType.is_Pong (messageType msg) = true) ∧
     ∃ err, env_sendError env = Some err ∧
       sendMessage env msg st =
         (msgSendError msg st, SendRejected (ReasonError err)))
  ∨ (isConnected st = true ∧
     (handshake st = true ∨ MessageType.is_Pong (messageType msg) = true) ∧
     env_sendError env = None ∧
     ∃ ws, socket st = Some ws ∧
       sendMessage env msg st = (set_wire st (wire st ++ [(ws, msg)]), Sent)).
Proof.
  unfold sendMessage.
  destruct (isConnected st) eqn:Hc; simpl; [|by left].
  destruct (handshake st) eqn:Hh, (MessageType.is_Pong (messageType msg)) eqn:Hp;
    simpl; try (right; left; done);
    (destruct (env_sendError env) as [err|] eqn:He;
     [ right; right; left; eauto 10
     | right; right; right;
       destruct (isConnected_socket st Hc) as (ws & Hs & _); rewrite Hs;
       eauto 10 ]).
Qed.

(** [sendMessage] touches the resend queue and the wire only. *)
Lemma sendMessage_frame env msg st :
  let st' := (sendMessage env msg st).1 in
  handshake st' = handshake st ∧ socket st' = socket st ∧
  outstandingRedeems st' = outstandingRedeems st ∧
  resultHandlers st' = resultHandlers st ∧
  resendIntervalHandle st' = resendIntervalHandle st ∧
  readyState st' = readyState st ∧ listening st' = listening st ∧
  intervals st' = intervals st ∧ nextTimer st' = nextTimer st ∧
  ingame st' = ingame st ∧ calls st' = calls st.
Proof.
  destruct (sendMessage_cases env msg st)
    as [(_ & ->)|[(_ & _ & _ & ->)|[(_ & _ & ? & _ & ->)|(_ & _ & _ & ? & _ & ->)]]];
    simpl; done.
Qed.

(** C6.  When the transport reports an error for a message that passed
    both gates, the promise of [sendMessage] is rejected with that error
    and the message is appended to the resend queue, nothing else
    changing; and pushing onto the queue always appends, whatever the
    state. *)
Theorem send_failure_rejects_and_queues env msg st err :
  isConnected st = true →
  handshake st = true ∨ MessageType.is_Pong (messageType msg) = true →
  env_sendError env = Some err →
  sendMessage env msg st =
    (set_unsentQueue st (unsentQueue st ++ [msg]),
     SendRejected (ReasonError err))
  ∧ ∀ m s, unsentQueue (msgSendError m s) = unsentQueue s ++ [m].
Proof.
  intros Hc Hg He. split; [|done].
  destruct (sendMessage_cases env msg st)
    as [(? & _)|[(_ & Hh & Hp & _)|[(_ & _ & e & He' & ->)|(_ & _ & ? & _)]]];
    try congruence.
  - destruct Hg; congruence.
  - unfold msgSendError. congruence.
Qed.

Lemma send_failure_rejects_and_queues_witness :
  sendMessage env_fail msg1 st_ready =
    (set_unsentQueue st_ready (unsentQueue st_ready ++ [msg1]),
     SendRejected (ReasonError epipe))
  ∧ ∀ m s, unsentQueue (msgSendError m s) = unsentQueue s ++ [m].
Proof.
  apply (send_failure_rejects_and_queues env_fail msg1 st_ready epipe).
  - vm_compute. reflexivity.
  - left. vm_compute. reflexivity.
  - reflexivity.
Defined.

(** ** Handshake *)

(** C4.  Processing [Hello] with version [X] completes the handshake
    whatever [X] is, and hands to [sendMessage] a [HelloBack] whose
    [allowed] is true exactly when [X] is the string [VERSION]; with an
    open socket and no transport error that reply goes out on the bound
    socket, otherwise it is queued for resending. *)
Theorem hello_replies_and_completes_handshake env g ts X st :
  let st' := processMessage env (GHello g ts X) st in
  handshake st' = true
  ∧ messageType (helloBack env X) = MessageType.HelloBack
  ∧ (∃ a, allowedOf (helloBack env X) = Some a ∧ (a = true ↔ X = VERSION))
  ∧ (isConnected st = true → env_sendError env = None →
     ∃ ws, socket st = Some ws ∧
           wire st' = wire st ++ [(ws, helloBack env X)] ∧
           unsentQueue st' = unsentQueue st)
  ∧ (isConnected st = false ∨ is_Some (env_sendError env) →
     wire st' = wire st ∧
     unsentQueue st' = unsentQueue st ++ [helloBack env X]).
Proof.
  intros st'.
  assert (Hst' : st' = (sendMessage env (helloBack env X) (set_handshake st true)).1)
    by reflexivity.
  pose proof (sendMessage_frame env (helloBack env X) (set_handshake st true))
    as (Hh & _).
  split; [by rewrite Hst', Hh|].
  split; [done|].
  split.
  { exists (String.eqb X VERSION). split; [done|]. apply String.eqb_eq. }
  destruct (sendMessage_cases env (helloBack env X) (set_handshake st true))
    as [(Hc & E)|[(_ & Hf & _)|[(Hc & _ & e & He & E)|(Hc & _ & He & ws & Hs & E)]]];
    [ | done | | ]; rewrite Hst', E; simpl;
    change (isConnected (set_handshake st true)) with (isConnected st) in Hc.
  - split; [congruence|]. done.
  - split; [congruence|]. done.
  - split; [eauto|]. intros [?|[? ?]]; congruence.
Qed.

(** ** The gates of [sendMessage] *)

(** C5, as amended.  With an open socket and the handshake not done, a
    message that is not a [Pong] is rejected with [HandshakeIncomplete]
    (and queued); a [Pong] passes the gate and, when the transport takes
    it, is sent; and an inbound [Ping] makes [processMessage] send a
    [Pong] at once, which on an open socket with a willing transport goes
    out whatever the handshake state. *)
Theorem handshake_gate env msg g ts st :
  isConnected st = true →
  (handshake st = false → MessageType.is_Pong (messageType msg) = false →
   sendMessage env msg st =
     (msgSendError msg st, SendRejected (ReasonText HandshakeIncomplete)))
  ∧ (MessageType.is_Pong (messageType msg) = true → env_sendError env = None →
     ∃ ws, socket st = Some ws ∧
       sendMessage env msg st = (set_wire st (wire st ++ [(ws, msg)]), Sent))
  ∧ processMessage env (GPing g ts) st = (sendMessage env (pong env) st).1
  ∧ (env_sendError env = None →
     ∃ ws, socket st = Some ws ∧
       processMessage env (GPing g ts) st =
         set_wire st (wire st ++ [(ws, pong env)])).
Proof.
  intros Hc. repeat split.
  - intros Hh Hp.
    destruct (sendMessage_cases env msg st)
      as [(? & _)|[(_ & _ & _ & E)|[(_ & [?|?] & _)|(_ & [?|?] & _)]]];
      congruence.
  - intros Hp He.
    destruct (sendMessage_cases env msg st)
      as [(? & _)|[(_ & _ & ? & _)|[(_ & _ & e & ? & _)|(_ & _ & _ & ws & ? & E)]]];
      try congruence.
    eauto.
  - intros He.
    change (processMessage env (GPing g ts) st)
      with (sendMessage env (pong env) st).1.
    destruct (sendMessage_cases env (pong env) st)
      as [(? & _)|[(_ & _ & ? & _)|[(_ & _ & e & ? & _)|(_ & _ & _ & ws & ? & E)]]];
      try congruence; try done.
    exists ws. by rewrite E.
Qed.

Lemma handshake_gate_witness :
  (handshake st_bound = false →
   MessageType.is_Pong (messageType msg1) = false →
   sendMessage env_ok msg1 st_bound =
     (msgSendError msg1 st_bound, SendRejected (ReasonText HandshakeIncomplete)))
  ∧ (MessageType.is_Pong (messageType msg1) = true → env_sendError env_ok = None →
     ∃ ws, socket st_bound = Some ws ∧
       sendMessage env_ok msg1 st_bound =
         (set_wire st_bound (wire st_bound ++ [(ws, msg1)]), Sent))
  ∧ processMessage env_ok (GPing "p1" 995) st_bound =
      (sendMessage env_ok (pong env_ok) st_bound).1
  ∧ (env_sendError env_ok = None →
     ∃ ws, socket st_bound = Some ws ∧
       processMessage env_ok (GPing "p1" 995) st_bound =
         set_wire st_bound (wire st_bound ++ [(ws, pong env_ok)])).
Proof.
  apply (handshake_gate env_ok msg1 "p1" 995 st_bound).
  vm_compute. reflexivity.
Defined.

(** C5 as stated fails without an open socket: before the handshake a
    non-[Pong] send on a connection that has no socket is rejected with
    [NotConnected], not with [HandshakeIncomplete]. *)
Lemma handshake_gate_needs_open_socket :
  handshake st_fresh = false
  ∧ MessageType.is_Pong (messageType msg1) = false
  ∧ (sendMessage env_ok msg1 st_fresh).2 = SendRejected (ReasonText NotConnected)
  ∧ (sendMessage env_ok msg1 st_fresh).2 ≠
      SendRejected (ReasonText HandshakeIncomplete).
Proof.
  repeat split. vm_compute. discriminate.
Qed.

(** What one call of [sendMessage] does to the queue and to the wire, by
    its outcome. *)
Lemma sendMessage_effect env m st :
  match (sendMessage env m st).2 with
  | Sent =>
      unsentQueue (sendMessage env m st).1 = unsentQueue st ∧
      ∃ ws, socket st = Some ws ∧
            wire (sendMessage env m st).1 = wire st ++ [(ws, m)]
  | SendRejected _ =>
      unsentQueue (sendMessage env m st).1 = unsentQueue st ++ [m] ∧
      wire (sendMessage env m st).1 = wire st
  end.
Proof.
  destruct (sendMessage_cases env m st)
    as [(_ & ->)|[(_ & _ & _ & ->)|[(_ & _ & ? & _ & ->)|(_ & _ & _ & ws & ? & ->)]]];
    simpl; eauto.
Qed.

(** ** Synchronous rejections *)

(** C3, as amended.  A send without an open socket, or of a non-[Pong]
    before the handshake, is rejected and changes nothing but the resend
    queue, to which the message is appended; a [redeem] with an empty
    transaction id, or with one that is already outstanding, is rejected
    and changes nothing at all besides recording its own rejected
    promise: no message is queued or sent and both correlation maps,
    hence the first submission's registration, stay as they were. *)
Theorem synchronous_rejections env msg r cart user id st :
  (isConnected st = false →
   sendMessage env msg st =
     (set_unsentQueue st (unsentQueue st ++ [msg]),
      SendRejected (ReasonText NotConnected)))
  ∧ (isConnected st = true → handshake st = false →
     MessageType.is_Pong (messageType msg) = false →
     sendMessage env msg st =
       (set_unsentQueue st (unsentQueue st ++ [msg]),
        SendRejected (ReasonText HandshakeIncomplete)))
  ∧ redeem env r cart user EmptyString st =
      (set_calls st (calls st ++ [rejectedCall env MissingTransactionId]),
       length (calls st))
  ∧ (id ≠ EmptyString → is_Some (outstandingRedeems st !! id) →
     let st' := (redeem env r cart user id st).1 in
     redeem env r cart user id st =
       (set_calls st (calls st ++ [rejectedCall env (DuplicateRedeem id)]),
        length (calls st))
     ∧ outstandingRedeems st' = outstandingRedeems st
     ∧ resultHandlers st' = resultHandlers st
     ∧ unsentQueue st' = unsentQueue st
     ∧ wire st' = wire st
     ∧ ∀ c, c < length (calls st) → calls st' !! c = calls st !! c).
Proof.
  split; [|split; [|split]].
  - intros Hc.
    destruct (sendMessage_cases env msg st)
      as [(_ & ->)|[(? & _)|[(? & _)|(? & _)]]]; [done|congruence..].
  - intros Hc Hh Hp.
    destruct (sendMessage_cases env msg st)
      as [(? & _)|[(_ & _ & _ & ->)|[(_ & [?|?] & _)|(_ & [?|?] & _)]]];
      [congruence|done|congruence..].
  - done.
  - intros Hid [m Hm]. simpl.
    assert (E : redeem env r cart user id st =
              (set_calls st (calls st ++ [rejectedCall env (DuplicateRedeem id)]),
               length (calls st))).
    { unfold redeem.
      destruct (String.eqb_spec id EmptyString) as [|_]; [done|].
      simpl. by rewrite Hm. }
    rewrite E. simpl. repeat split.
    intros c Hlt. by rewrite lookup_app_l.
Qed.

Lemma synchronous_rejections_witness :
  let st := (redeem env_ok (redeem0 None) cart0 user0 "tx-1" st_ready).1 in
  let st' := (redeem env_late (redeem0 None) cart0 user0 "tx-1" st).1 in
  outstandingRedeems st' = outstandingRedeems st
  ∧ resultHandlers st' = resultHandlers st
  ∧ unsentQueue st' = unsentQueue st
  ∧ wire st' = wire st.
Proof.
  intros st st'.
  destruct (synchronous_rejections env_late msg1 (redeem0 None) cart0 user0
              "tx-1" st) as (_ & _ & _ & H).
  destruct H as (_ & Ho & Hh & Hq & Hw & _).
  - discriminate.
  - vm_compute. eauto.
  - exact (conj Ho (conj Hh (conj Hq Hw))).
Defined.

(** C3 as stated fails for the two send gates: a message rejected for
    want of a socket, or for want of a handshake, is pushed onto the
    resend queue. *)
Lemma rejected_send_is_queued :
  (sendMessage env_ok msg1 st_fresh).2 = SendRejected (ReasonText NotConnected)
  ∧ unsentQueue st_fresh = []
  ∧ unsentQueue (sendMessage env_ok msg1 st_fresh).1 = [msg1]
  ∧ (sendMessage env_ok msg1 st_bound).2 =
      SendRejected (ReasonText HandshakeIncomplete)
  ∧ unsentQueue st_bound = []
  ∧ unsentQueue (sendMessage env_ok msg1 st_bound).1 = [msg1].
Proof. repeat split. Qed.

(** ** The resend queue *)

(** Failed sends are queued in the order they were made. *)
Lemma failed_sends_queue_in_order (ems : list (Env * ServerMessage)) st :
  isConnected st = false →
  let st' := run (map (λ em, (em.1, EvSend em.2)) ems) st in
  unsentQueue st' = unsentQueue st ++ map snd ems ∧ wire st' = wire st.
Proof.
  revert st. induction ems as [|[env m] ems IH]; intros st Hc; simpl.
  - by rewrite app_nil_r.
  - pose proof (sendMessage_frame env m st) as (_ & Hs & _ & _ & _ & Hr & _).
    destruct (sendMessage_cases env m st)
      as [(_ & E)|[(? & _)|[(? & _)|(? & _)]]]; [|congruence..].
    destruct (IH (sendMessage env m st).1) as [Hq Hw].
    { unfold isConnected in *. by rewrite Hs, Hr. }
    simpl in Hq, Hw. rewrite Hq, Hw, E. simpl.
    by rewrite <- app_assoc.
Qed.

(** With an open socket, a completed handshake and a willing transport,
    as many ticks as the queue is long send the queue in order and leave
    it empty. *)
Lemma ticks_drain_in_order (envs : list Env) h st ws :
  socket st = Some ws → readyState st !! ws = Some OPEN →
  handshake st = true → is_Some (intervals st !! h) →
  Forall (λ env, env_sendError env = None) envs →
  length envs = length (unsentQueue st) →
  let st' := run (map (λ env, (env, EvTick h)) envs) st in
  unsentQueue st' = [] ∧
  wire st' = wire st ++ map (λ m, (ws, m)) (unsentQueue st).
Proof.
  revert st.
  induction envs as [|env envs IH]; intros st Hs Hr Hh [p Hi] Hok Hlen; simpl.
  - destruct (unsentQueue st); [|done]. simpl. by rewrite app_nil_r.
  - destruct (unsentQueue st) as [|m q] eqn:Hq; [done|].
    rewrite Hi. unfold tryResendFromQueue. rewrite Hq.
    apply Forall_cons in Hok as [He Hok].
    set (st0 := set_unsentQueue st q).
    pose proof (sendMessage_frame env m st0)
      as (Hh' & Hs' & _ & _ & _ & Hr' & _ & Hi' & _).
    assert (Hc : isConnected st0 = true).
    { unfold isConnected. simpl. rewrite Hs. by apply bool_decide_eq_true. }
    destruct (sendMessage_cases env m st0)
      as [(? & _)|[(_ & ? & _)|[(_ & _ & e & ? & _)|(_ & _ & _ & ws' & Hws' & E)]]];
      try congruence.
    { simpl in *. congruence. }
    simpl in Hws'. assert (ws' = ws) as -> by congruence.
    destruct (IH (sendMessage env m st0).1) as [Hq' Hw'].
    + by rewrite Hs'.
    + by rewrite Hr'.
    + by rewrite Hh'.
    + rewrite Hi'. simpl. eauto.
    + done.
    + rewrite E. simpl. simpl in Hlen. lia.
    + simpl in Hq', Hw'. rewrite Hq', Hw', E. simpl.
      by rewrite <- app_assoc.
Qed.

(** C7.  A tick on an empty queue does nothing.  A tick on a queue
    [m :: rest] takes [m], the oldest message, off the queue and tries to
    send it and no other: if that succeeds [m] goes out on the socket and
    the queue is [rest]; if it fails, for whatever reason, the queue is
    [rest ++ [m]] and nothing goes out.  Sends that fail are queued in the
    order they were made, and ticks with a working connection send the
    queue in that order. *)
Theorem resend_queue_is_fifo env st :
  (unsentQueue st = [] → tryResendFromQueue env st = st)
  ∧ (∀ m rest, unsentQueue st = m :: rest →
     let st' := tryResendFromQueue env st in
     match (sendMessage env m (set_unsentQueue st rest)).2 with
     | Sent =>
         unsentQueue st' = rest ∧
         ∃ ws, socket st = Some ws ∧ wire st' = wire st ++ [(ws, m)]
     | SendRejected _ =>
         unsentQueue st' = rest ++ [m] ∧ wire st' = wire st
     end)
  ∧ (∀ ems : list (Env * ServerMessage), isConnected st = false →
     unsentQueue (run (map (λ em, (em.1, EvSend em.2)) ems) st)
       = unsentQueue st ++ map snd ems)
  ∧ (∀ (envs : list Env) h ws,
     socket st = Some ws → readyState st !! ws = Some OPEN →
     handshake st = true → is_Some (intervals st !! h) →
     Forall (λ env, env_sendError env = None) envs →
     length envs = length (unsentQueue st) →
     let st' := run (map (λ env, (env, EvTick h)) envs) st in
     unsentQueue st' = [] ∧
     wire st' = wire st ++ map (λ m, (ws, m)) (unsentQueue st)).
Proof.
  split; [|split; [|split]].
  - intros Hq. unfold tryResendFromQueue. by rewrite Hq.
  - intros m rest Hq st'. subst st'. unfold tryResendFromQueue. rewrite Hq.
    apply (sendMessage_effect env m (set_unsentQueue st rest)).
  - intros ems Hc. by apply failed_sends_queue_in_order.
  - intros envs h ws. apply ticks_drain_in_order.
Qed.

Lemma resend_queue_is_fifo_witness :
  let st0 := run [(env_ok, EvSend msg1); (env_ok, EvSend msg2)] st_fresh in
  let st := run [(env_ok, EvSetSocket (Some 1));
                 (env_ok, EvMessage 1 (GHello "a1" 990 "0.1.0"))] st0 in
  let st' := run [(env_ok, EvTick 1%positive); (env_late, EvTick 1%positive)] st in
  unsentQueue st = [msg1; msg2]
  ∧ unsentQueue st' = []
  ∧ wire st' = wire st ++ [(1, msg1); (1, msg2)].
Proof.
  intros st0 st st'.
  destruct (resend_queue_is_fifo env_ok st) as (_ & _ & _ & H).
  destruct (H [env_ok; env_late] 1%positive 1) as [Hq Hw].
  - reflexivity.
  - reflexivity.
  - reflexivity.
  - vm_compute. eauto.
  - repeat constructor.
  - reflexivity.
  - split; [reflexivity|]. split; [exact Hq|exact Hw].
Defined.

(** ** Socket lifecycle *)

Lemma onClose_effect st :
  let st' := onClose st in
  ingame st' = false ∧ handshake st' = handshake st ∧
  socket st' = socket st ∧ readyState st' = readyState st ∧
  resendIntervalHandle st' = resendIntervalHandle st ∧
  unsentQueue st' = unsentQueue st ∧
  outstandingRedeems st' = outstandingRedeems st ∧
  resultHandlers st' = resultHandlers st ∧ calls st' = calls st ∧
  (∀ h, resendIntervalHandle st = Some h →
        intervals st' = delete h (intervals st)) ∧
  (resendIntervalHandle st = None → intervals st' = intervals st).
Proof.
  unfold onClose, setIngame, clearInterval. simpl.
  destruct (resendIntervalHandle st) as [h|] eqn:Hh; simpl; rewrite ?Hh;
    repeat split; try done.
  by intros ? [= ->].
Qed.

Lemma step_close env ws st :
  ws ∈ listening st →
  step env (EvClose ws) st =
    onClose (set_readyState st (<[ws:=CLOSED]> (readyState st))).
Proof. intros Hl. simpl. by rewrite bool_decide_eq_true_2. Qed.

(** C8, as amended.  When a socket the connection listens to closes, the
    in-game status is set to false and the interval whose handle the
    connection holds is cleared; the handshake flag keeps the value it
    had.  After a single bind in a fresh environment no interval is left
    running. *)
Theorem close_stops_timer_and_notifies env ws st :
  ws ∈ listening st →
  let st' := step env (EvClose ws) st in
  ingame st' = false
  ∧ (∀ h, resendIntervalHandle st = Some h → intervals st' !! h = None)
  ∧ handshake st' = handshake st
  ∧ readyState st' !! ws = Some CLOSED
  ∧ (∀ rs, st = setSocket (Some ws) (initial rs) → intervals st' = ∅).
Proof.
  intros Hl st'. subst st'. simpl.
  rewrite bool_decide_eq_true_2 by done.
  set (st1 := set_readyState st (<[ws:=CLOSED]> (readyState st))).
  pose proof (onClose_effect st1)
    as (Hi & Hh & _ & Hr & _ & _ & _ & _ & _ & Hclr & _).
  split; [done|]. split; [|split; [done|split]].
  - intros h Hh'. rewrite (Hclr h) by done. apply lookup_delete_eq.
  - rewrite Hr. simpl. apply lookup_insert_eq.
  - intros rs ->. rewrite (Hclr 1%positive) by done. simpl.
    rewrite insert_empty. apply delete_singleton_eq.
Qed.

Lemma close_stops_timer_and_notifies_witness :
  let st' := step env_ok (EvClose 1) st_ready in
  ingame st' = false
  ∧ (∀ h, resendIntervalHandle st_ready = Some h → intervals st' !! h = None)
  ∧ handshake st' = handshake st_ready
  ∧ readyState st' !! 1 = Some CLOSED
  ∧ (∀ rs, st_ready = setSocket (Some 1) (initial rs) → intervals st' = ∅).
Proof.
  apply (close_stops_timer_and_notifies env_ok 1 st_ready).
  vm_compute. set_solver.
Defined.

(** C8 as stated fails for the handshake flag: the [close] listener does
    not touch it, so a connection that had completed the handshake still
    has [handshake = true] after its socket closed. *)
Lemma close_keeps_handshake :
  1 ∈ listening st_ready
  ∧ handshake st_ready = true
  ∧ handshake (step env_ok (EvClose 1) st_ready) = true.
Proof. split; [set_solver|]. split; reflexivity. Qed.

(** C9, as amended.  [setSocket] makes its argument the bound socket,
    after calling [close] on the previously bound socket if that one was
    open, so that the previous socket is not open afterwards.  Binding a
    socket resets the handshake, starts an interval of period 500 whose
    handle the connection keeps, and installs the listeners.  Binding
    null leaves the connection without a socket and changes neither the
    handshake flag nor the timer table: the interval keeps running until
    a [close] event of a bound socket is handled. *)
Theorem setSocket_rebinds ws st :
  let st' := setSocket ws st in
  socket st' = ws
  ∧ (∀ old, socket st = Some old → readyState st !! old = Some OPEN →
            readyState st' !! old = Some CLOSING)
  ∧ (∀ old, socket st = Some old → readyState st' !! old ≠ Some OPEN)
  ∧ match ws with
    | Some w =>
        handshake st' = false
        ∧ resendIntervalHandle st' = Some (nextTimer st)
        ∧ intervals st' = <[nextTimer st := 500%Z]> (intervals st)
        ∧ w ∈ listening st'
    | None =>
        handshake st' = handshake st
        ∧ resendIntervalHandle st' = resendIntervalHandle st
        ∧ intervals st' = intervals st
        ∧ ∀ env w h, w ∈ listening st → resendIntervalHandle st = Some h →
            intervals (step env (EvClose w) st') !! h = None
    end.
Proof.
  intros st'.
  assert (Hrs : ∀ old, socket st = Some old →
            readyState st' !! old =
              if bool_decide (readyState st !! old = Some OPEN)
              then Some CLOSING else readyState st !! old).
  { intros old Hold. subst st'. unfold setSocket, isConnected. rewrite Hold.
    case_bool_decide; destruct ws; simpl; by rewrite ?lookup_insert_eq. }
  split; [by destruct ws|]. split; [|split].
  - intros old Hold Hopen. rewrite (Hrs old Hold).
    by rewrite bool_decide_eq_true_2.
  - intros old Hold. rewrite (Hrs old Hold). case_bool_decide; congruence.
  - subst st'. unfold setSocket.
    destruct ws as [w|].
    + destruct (isConnected st); [destruct (socket st)|]; simpl;
        (repeat split; [set_solver]).
    + assert (Hsame : handshake (setSocket None st) = handshake st ∧
                resendIntervalHandle (setSocket None st) = resendIntervalHandle st ∧
                intervals (setSocket None st) = intervals st ∧
                listening (setSocket None st) = listening st).
      { unfold setSocket.
        destruct (isConnected st); [destruct (socket st)|]; done. }
      destruct Hsame as (Hh & Hr & Hi & Hl).
      change (handshake (setSocket None st) = handshake st
        ∧ resendIntervalHandle (setSocket None st) = resendIntervalHandle st
        ∧ intervals (setSocket None st) = intervals st
        ∧ ∀ env w h, w ∈ listening st → resendIntervalHandle st = Some h →
            intervals (step env (EvClose w) (setSocket None st)) !! h = None).
      repeat split; try done.
      intros env w h Hw Hh'. rewrite step_close by (by rewrite Hl).
      set (st1 := set_readyState _ _).
      pose proof (onClose_effect st1)
        as (_ & _ & _ & _ & _ & _ & _ & _ & _ & Hclr & _).
      rewrite (Hclr h)
        by (change (resendIntervalHandle (setSocket None st) = Some h);
            congruence).
      apply lookup_delete_eq.
Qed.

(** C9 as stated fails for the null case: binding null after a bind
    leaves the connection without a socket, but the interval started by
    the bind is still in the timer table. *)
Lemma binding_null_keeps_timer :
  socket (setSocket None st_bound) = None
  ∧ resendIntervalHandle (setSocket None st_bound) = Some 1%positive
  ∧ intervals st_bound !! 1%positive = Some 500%Z
  ∧ intervals (setSocket None st_bound) !! 1%positive = Some 500%Z.
Proof. repeat split. Qed.

Lemma setSocket_rebinds_witness :
  let st' := setSocket (Some 2) st_ready in
  socket st' = Some 2
  ∧ readyState st' !! 1 = Some CLOSING
  ∧ handshake st' = false
  ∧ intervals st' !! 2%positive = Some 500%Z.
Proof.
  intros st'.
  destruct (setSocket_rebinds (Some 2) st_ready) as (Hs & Hc & _ & Hh & _ & Hi & _).
  split; [exact Hs|]. split; [|split; [exact Hh|]].
  - apply (Hc 1); reflexivity.
  - subst st'. rewrite Hi. reflexivity.
Defined.

(** ** The redeem message *)

Lemma redeem_registers env r cart user id st :
  id ≠ EmptyString → outstandingRedeems st !! id = None →
  let msg := redeemMessage env r cart user id in
  let st1 := set_calls st (calls st ++ [pendingCall env]) in
  let st2 := set_maps st1 (<[id := msg]> (outstandingRedeems st))
                          (<[id := length (calls st)]> (resultHandlers st)) in
  redeem env r cart user id st = ((sendMessage env msg st2).1, length (calls st)).
Proof.
  intros Hid Hnone. unfold redeem.
  destruct (String.eqb_spec id EmptyString) as [|_]; [done|].
  simpl. by rewrite Hnone.
Qed.

(** C10.  The message [redeem] registers for a fresh, non-empty
    transaction id, which is the one it hands to [sendMessage], carries in
    [announce] the number of the item's [AnnounceType] when the item has
    one, so 0 for [DefaultAnnounce], which is falsy and not a boolean; it
    carries the boolean [true] exactly when the item has none. *)
Theorem redeem_announce_copied env r cart user id st :
  id ≠ EmptyString → outstandingRedeems st !! id = None →
  let st' := (redeem env r cart user id st).1 in
  let msg := redeemMessage env r cart user id in
  outstandingRedeems st' !! id = Some msg
  ∧ (msg ∈ unsentQueue st' ∨ ∃ ws, (ws, msg) ∈ wire st')
  ∧ (∀ a, redeem_announce r = Some a →
          announceOf msg = Some (AnnounceNum (AnnounceType.value a)))
  ∧ (redeem_announce r = Some AnnounceType.DefaultAnnounce →
     announceOf msg = Some (AnnounceNum 0) ∧ truthy (AnnounceNum 0) = false
     ∧ ∀ b, announceOf msg ≠ Some (AnnounceBool b))
  ∧ (announceOf msg = Some (AnnounceBool true) ↔ redeem_announce r = None).
Proof.
  intros Hid Hnone st' msg. subst st'.
  rewrite (redeem_registers env r cart user id st Hid Hnone). simpl.
  fold msg.
  set (st2 := set_maps _ _ _).
  pose proof (sendMessage_frame env msg st2) as (_ & _ & Ho & _).
  pose proof (sendMessage_effect env msg st2) as He.
  split; [rewrite Ho; simpl; apply lookup_insert_eq|].
  split.
  { destruct ((sendMessage env msg st2).2).
    - destruct He as (_ & ws & _ & Hw). right. exists ws. rewrite Hw.
      set_solver.
    - destruct He as (Hq & _). left. rewrite Hq. set_solver. }
  unfold announceOf, msg, redeemMessage. simpl.
  split; [by intros a ->|]. split.
  - intros ->. simpl. repeat split. intros b. discriminate.
  - destruct (redeem_announce r) as [a|]; simpl; split; intros H;
      try done; discriminate H.
Qed.

Lemma redeem_announce_copied_witness :
  let r := redeem0 (Some AnnounceType.DefaultAnnounce) in
  let st' := (redeem env_ok r cart0 user0 "tx-1" st_ready).1 in
  let msg := redeemMessage env_ok r cart0 user0 "tx-1" in
  outstandingRedeems st' !! "tx-1" = Some msg
  ∧ (1, msg) ∈ wire st'
  ∧ announceOf msg = Some (AnnounceNum 0).
Proof.
  intros r st' msg.
  destruct (redeem_announce_copied env_ok r cart0 user0 "tx-1" st_ready)
    as (Ho & _ & _ & Hz & _).
  - discriminate.
  - reflexivity.
  - split; [exact Ho|]. split; [vm_compute; constructor 2; constructor 1|].
    apply Hz. reflexivity.
Defined.

(** ** Correlation of redeems and results *)

(** *** What each method does to the correlation state *)

Lemma resolveCall_core c r st :
  core (resolveCall c r st) =
    (outstandingRedeems st, resultHandlers st, calls (resolveCall c r st)).
Proof. unfold resolveCall, core. by destruct (calls st !! c). Qed.

Lemma resolveCall_lookup c r st c' :
  calls (resolveCall c r st) !! c' =
    if decide (c' = c) then resolved r <$> calls st !! c else calls st !! c'.
Proof.
  unfold resolveCall. destruct (calls st !! c) as [call|] eqn:E; simpl.
  - case_decide as Hc; [subst c'|].
    + apply list_lookup_insert_eq. by eapply lookup_lt_Some.
    + by apply list_lookup_insert_ne.
  - case_decide; by subst.
Qed.

Lemma resolveCall_length c r st :
  length (calls (resolveCall c r st)) = length (calls st).
Proof.
  unfold resolveCall. destruct (calls st !! c); simpl; [|done].
  apply length_insert.
Qed.

Lemma resultTimeout_core c st :
  core (resultTimeout c st) =
    (outstandingRedeems st, resultHandlers st, calls (resultTimeout c st)).
Proof. unfold resultTimeout, core. by destruct (calls st !! c). Qed.

Lemma resultTimeout_lookup c st c' :
  calls (resultTimeout c st) !! c' =
    if decide (c' = c) then timedOut <$> calls st !! c else calls st !! c'.
Proof.
  unfold resultTimeout. destruct (calls st !! c) as [call|] eqn:E; simpl.
  - case_decide as Hc; [subst c'|].
    + apply list_lookup_insert_eq. by eapply lookup_lt_Some.
    + by apply list_lookup_insert_ne.
  - case_decide; by subst.
Qed.

Lemma resultTimeout_length c st :
  length (calls (resultTimeout c st)) = length (calls st).
Proof.
  unfold resultTimeout. destruct (calls st !! c); simpl; [|done].
  apply length_insert.
Qed.

Lemma sendMessage_core env msg st :
  core (sendMessage env msg st).1 = core st.
Proof.
  pose proof (sendMessage_frame env msg st)
    as (_ & _ & Ho & Hh & _ & _ & _ & _ & _ & _ & Hc).
  unfold core. by rewrite Ho, Hh, Hc.
Qed.

Lemma processResult_core env r st :
  core (processMessage env (GResult r) st) =
    (delete (res_guid r) (outstandingRedeems st),
     delete (res_guid r) (resultHandlers st),
     match resultHandlers st !! res_guid r with
     | Some c => calls (resolveCall c r st)
     | None => calls st
     end).
Proof.
  unfold processMessage.
  destruct (resultHandlers st !! res_guid r) as [c|]; [|done].
  pose proof (resolveCall_core c r st) as E. unfold core in *. simpl.
  by injection E as -> ->.
Qed.

Lemma processOther_core env msg st :
  (∀ r, msg ≠ GResult r) → core (processMessage env msg st) = core st.
Proof.
  intros Hr. destruct msg as [g ts v|g ts|r|g ts b|tag g ts]; simpl;
    rewrite ?sendMessage_core; try done.
  by destruct (Hr r).
Qed.

Lemma redeem_core env r cart user id st :
  (∃ e, core (redeem env r cart user id st).1 =
          (outstandingRedeems st, resultHandlers st,
           calls st ++ [rejectedCall env e]))
  ∨ (id ≠ EmptyString ∧ outstandingRedeems st !! id = None ∧
     core (redeem env r cart user id st).1 =
       (<[id := redeemMessage env r cart user id]> (outstandingRedeems st),
        <[id := length (calls st)]> (resultHandlers st),
        calls st ++ [pendingCall env])).
Proof.
  destruct (String.eqb_spec id EmptyString) as [->|Hid].
  { left. by eexists. }
  destruct (outstandingRedeems st !! id) as [m|] eqn:Ho.
  - left. exists (DuplicateRedeem id). unfold redeem.
    destruct (String.eqb_spec id EmptyString) as [|_]; [done|].
    simpl. by rewrite Ho.
  - right. split; [done|]. split; [done|].
    rewrite (redeem_registers env r cart user id st Hid Ho). simpl.
    by rewrite sendMessage_core.
Qed.

(** The correlation state after one turn of the event loop. *)
Lemma step_core env ev st :
  match ev with
  | EvMessage ws (GResult r) =>
      core (step env ev st) = core st ∨
      core (step env ev st) = core (processMessage env (GResult r) st)
  | EvRedeem r cart user id =>
      core (step env ev st) = core (redeem env r cart user id st).1
  | EvResultTimeout c =>
      core (step env ev st) = core st ∨
      core (step env ev st) = core (resultTimeout c st)
  | _ => core (step env ev st) = core st
  end.
Proof.
  destruct ev as [ws|ws msg| | | | | | | |]; simpl; try done.
  - unfold setSocket.
    destruct (isConnected st); [destruct (socket st)|]; by destruct ws.
  - destruct msg as [g ts v|g ts|r|g ts b|tag g ts];
      case_bool_decide; auto;
      by rewrite processOther_core.
  - case_bool_decide; [|done].
    unfold onClose, setIngame, clearInterval. simpl.
    by destruct (resendIntervalHandle st).
  - destruct (intervals st !! h); [|done].
    unfold tryResendFromQueue. destruct (unsentQueue st); [done|].
    by rewrite sendMessage_core.
  - destruct (calls st !! c); [|by left].
    destruct (_ && _); auto.
  - apply sendMessage_core.
Qed.

(** *** Invariants of the event loop *)

Lemma core_fields st o h cs :
  core st = (o, h, cs) →
  outstandingRedeems st = o ∧ resultHandlers st = h ∧ calls st = cs.
Proof. unfold core. by intros [= -> -> ->]. Qed.

Lemma core_same st st' :
  core st' = core st →
  outstandingRedeems st' = outstandingRedeems st ∧
  resultHandlers st' = resultHandlers st ∧ calls st' = calls st.
Proof. apply core_fields. Qed.

Lemma wf_same st st' : core st' = core st → wf st → wf st'.
Proof.
  intros (_ & Hh & Hc)%core_same Hwf g c. rewrite Hh, Hc. apply Hwf.
Qed.

Lemma wf_result env r st : wf st → wf (processMessage env (GResult r) st).
Proof.
  intros Hwf g c.
  destruct (core_fields _ _ _ _ (processResult_core env r st)) as (_ & -> & ->).
  intros [_ Hg]%lookup_delete_Some. apply Hwf in Hg.
  destruct (resultHandlers st !! res_guid r); [|done].
  by rewrite resolveCall_length.
Qed.

Lemma wf_redeem env r cart user id st :
  wf st → wf (redeem env r cart user id st).1.
Proof.
  intros Hwf g c.
  destruct (redeem_core env r cart user id st) as [[e E]|(_ & _ & E)];
    destruct (core_fields _ _ _ _ E) as (_ & -> & ->);
    rewrite length_app; simpl.
  - intros Hg%Hwf. lia.
  - intros [[_ <-]|[_ Hg%Hwf]]%lookup_insert_Some; lia.
Qed.

Lemma wf_timeout c st : wf st → wf (resultTimeout c st).
Proof.
  intros Hwf g c'.
  destruct (core_fields _ _ _ _ (resultTimeout_core c st)) as (_ & -> & _).
  rewrite resultTimeout_length. apply Hwf.
Qed.

Lemma step_wf env ev st : wf st → wf (step env ev st).
Proof.
  intros Hwf. pose proof (step_core env ev st) as H.
  destruct ev as [ws|ws msg| | | | |r cart user id|c| |];
    try (by eapply wf_same).
  - destruct msg; try (by eapply wf_same).
    destruct H as [H|H]; [by eapply wf_same|].
    eapply wf_same; [exact H|]. by apply wf_result.
  - eapply wf_same; [exact H|]. by apply wf_redeem.
  - destruct H as [H|H]; [by eapply wf_same|].
    eapply wf_same; [exact H|]. by apply wf_timeout.
Qed.

Lemma run_wf evs st : wf st → wf (run evs st).
Proof.
  revert st. induction evs as [|[env ev] evs IH]; intros st Hwf; simpl; [done|].
  by apply IH, step_wf.
Qed.

Lemma wf_initial rs : wf (initial rs).
Proof. intros g c. simpl. by rewrite lookup_empty. Qed.

(** A registration stays until a [Result] for its id is processed. *)
Lemma registered_same id c st st' :
  core st' = core st → registered id c st → registered id c st'.
Proof.
  intros (Ho & Hh & _)%core_same. unfold registered. by rewrite Ho, Hh.
Qed.

Lemma step_registered env ev id c st :
  noResultFor id ev = true → registered id c st →
  registered id c (step env ev st).
Proof.
  intros Hq [Hh [m Ho]]. pose proof (step_core env ev st) as H.
  assert (Hreg : registered id c st) by (split; eauto).
  destruct ev as [ws|ws msg| | | | |r cart user id'|c'| |];
    try (by eapply registered_same).
  - destruct msg as [| |r| |]; try (by eapply registered_same).
    destruct H as [H|H]; [by eapply registered_same|].
    simpl in Hq. apply negb_true_iff, String.eqb_neq in Hq.
    rewrite processResult_core in H.
    destruct (core_fields _ _ _ _ H) as (Ho' & Hh' & _).
    unfold registered. rewrite Ho', Hh'.
    rewrite !lookup_delete_ne by done. eauto.
  - destruct (redeem_core env r cart user id' st) as [[e E]|(_ & Hnone & E)];
      rewrite <- H in E; destruct (core_fields _ _ _ _ E) as (Ho' & Hh' & _);
      unfold registered; rewrite Ho', Hh'; [eauto|].
    assert (id' ≠ id) by congruence.
    rewrite !lookup_insert_ne by done. eauto.
  - destruct H as [H|H]; [by eapply registered_same|].
    rewrite resultTimeout_core in H.
    destruct (core_fields _ _ _ _ H) as (Ho' & Hh' & _).
    unfold registered. rewrite Ho', Hh'. eauto.
Qed.

Lemma run_registered evs id c st :
  silentFor id evs → registered id c st → registered id c (run evs st).
Proof.
  revert st. induction evs as [|[env ev] evs IH]; intros st Hq Hr; simpl; [done|].
  apply Forall_cons in Hq as [Hq Hqs]. by apply IH, step_registered.
Qed.

(** A call whose racers are both pending stays so until its timer fires
    or a [Result] for its id is processed. *)
Lemma step_awaiting env ev id c env0 st :
  noResultFor id ev = true → noTimeoutOf c ev = true →
  awaiting id c env0 st → awaiting id c env0 (step env ev st).
Proof.
  intros Hq Ht (Hwf & Hreg & Hu & Hcall).
  split; [by apply step_wf|]. split; [by apply step_registered|].
  pose proof (step_core env ev st) as H.
  assert (Hsame : core (step env ev st) = core st →
            (∀ g, resultHandlers (step env ev st) !! g = Some c → g = id) ∧
            calls (step env ev st) !! c = Some (pendingCall env0)).
  { by intros (_ & -> & ->)%core_same. }
  destruct ev as [ws|ws msg| | | | |r cart user id'|c'| |]; try (by apply Hsame).
  - destruct msg as [| |r| |]; try (by apply Hsame).
    destruct H as [H|H]; [by apply Hsame|].
    simpl in Hq. apply negb_true_iff, String.eqb_neq in Hq.
    rewrite processResult_core in H.
    destruct (core_fields _ _ _ _ H) as (_ & -> & ->). split.
    + intros g [_ Hg]%lookup_delete_Some. by apply Hu.
    + destruct (resultHandlers st !! res_guid r) as [c'|] eqn:Hh; [|done].
      rewrite resolveCall_lookup. case_decide as Hc; [|done].
      subst c'. by apply Hu in Hh.
  - pose proof (lookup_lt_Some _ _ _ Hcall) as Hlt.
    destruct (redeem_core env r cart user id' st) as [[e E]|(_ & _ & E)];
      rewrite <- H in E; destruct (core_fields _ _ _ _ E) as (_ & -> & ->).
    + split; [done|]. by rewrite lookup_app_l.
    + split; [|by rewrite lookup_app_l].
      intros g [[_ Hlen]|[_ Hg]]%lookup_insert_Some; [lia|by apply Hu].
  - destruct H as [H|H]; [by apply Hsame|].
    simpl in Ht. apply negb_true_iff, Nat.eqb_neq in Ht.
    rewrite resultTimeout_core in H.
    destruct (core_fields _ _ _ _ H) as (_ & -> & ->). split; [done|].
    rewrite resultTimeout_lookup. case_decide; [congruence|done].
Qed.

Lemma run_awaiting evs id c env0 st :
  silentFor id evs → untimed c evs →
  awaiting id c env0 st → awaiting id c env0 (run evs st).
Proof.
  revert st.
  induction evs as [|[env ev] evs IH]; intros st Hq Ht Ha; simpl; [done|].
  apply Forall_cons in Hq as [Hq Hqs]. apply Forall_cons in Ht as [Ht Hts].
  by apply IH, step_awaiting.
Qed.

(** A promise that has settled keeps its value whatever happens next. *)
Lemma settle_settled v old : old ≠ Pending → settle v old = old.
Proof. by destruct old. Qed.

Lemma resolved_outcome r call :
  outcome call ≠ Pending → outcome (resolved r call) = outcome call.
Proof.
  intros H. unfold resolved. simpl.
  destruct (is_pending (inner call)); [by apply settle_settled|done].
Qed.

Lemma step_settledAs env ev c v st :
  settledAs c v st → settledAs c v (step env ev st).
Proof.
  intros [Hv Hne]. split; [|done]. unfold outcomeOf in *.
  destruct (calls st !! c) as [call|] eqn:Hcall; [|done].
  injection Hv as Hv.
  pose proof (lookup_lt_Some _ _ _ Hcall) as Hlt.
  pose proof (step_core env ev st) as H.
  assert (Hsame : core (step env ev st) = core st →
            outcome <$> calls (step env ev st) !! c = Some v).
  { intros (_ & _ & ->)%core_same. by rewrite Hcall, <- Hv. }
  destruct ev as [ws|ws msg| | | | |r cart user id'|c'| |]; try (by apply Hsame).
  - destruct msg as [| |r| |]; try (by apply Hsame).
    destruct H as [H|H]; [by apply Hsame|].
    rewrite processResult_core in H.
    destruct (core_fields _ _ _ _ H) as (_ & _ & ->).
    destruct (resultHandlers st !! res_guid r) as [c'|];
      [|by rewrite Hcall, <- Hv].
    rewrite resolveCall_lookup. case_decide as Hd; [subst c'|];
      rewrite Hcall; [|by rewrite <- Hv].
    change (Some (outcome (resolved r call)) = Some v).
    rewrite resolved_outcome; congruence.
  - destruct (redeem_core env r cart user id' st) as [[e E]|(_ & _ & E)];
      rewrite <- H in E; destruct (core_fields _ _ _ _ E) as (_ & _ & ->);
      rewrite lookup_app_l by done; by rewrite Hcall, <- Hv.
  - destruct H as [H|H]; [by apply Hsame|].
    rewrite resultTimeout_core in H.
    destruct (core_fields _ _ _ _ H) as (_ & _ & ->).
    rewrite resultTimeout_lookup. case_decide as Hd; [subst c'|];
      rewrite Hcall; simpl; [|by rewrite <- Hv].
    rewrite settle_settled; congruence.
Qed.

Lemma run_settledAs evs c v st :
  settledAs c v st → settledAs c v (run evs st).
Proof.
  revert st. induction evs as [|[env ev] evs IH]; intros st Hs; simpl; [done|].
  by apply IH, step_settledAs.
Qed.

(** A successful registration makes the call awaited. *)
Lemma redeem_awaiting env r cart user id st :
  wf st → id ≠ EmptyString → outstandingRedeems st !! id = None →
  awaiting id (length (calls st)) env (redeem env r cart user id st).1 ∧
  calls (redeem env r cart user id st).1 = calls st ++ [pendingCall env] ∧
  outstandingRedeems (redeem env r cart user id st).1 !! id =
    Some (redeemMessage env r cart user id).
Proof.
  intros Hwf Hid Hnone.
  pose proof (wf_redeem env r cart user id st Hwf) as Hwf'.
  destruct (redeem_core env r cart user id st) as [[e E]|(_ & _ & E)].
  { exfalso. rewrite (redeem_registers env r cart user id st Hid Hnone) in E.
    simpl in E. rewrite sendMessage_core in E. unfold core in E. simpl in E.
    injection E as _ _ E. by apply app_inv_head in E. }
  destruct (core_fields _ _ _ _ E) as (Ho & Hh & Hc).
  split; [|split; [done|by rewrite Ho, lookup_insert_eq]].
  split; [done|]. split; [|split].
  - split; [by rewrite Hh, lookup_insert_eq|].
    rewrite Ho, lookup_insert_eq. eauto.
  - rewrite Hh. intros g [[-> _]|[_ Hg%Hwf]]%lookup_insert_Some; [done|lia].
  - rewrite Hc. by rewrite lookup_app_r, Nat.sub_diag.
Qed.

Lemma redeem_index env r cart user id st :
  (redeem env r cart user id st).2 = length (calls st).
Proof.
  unfold redeem. destruct (String.eqb id EmptyString); [done|].
  simpl. by destruct (outstandingRedeems st !! id).
Qed.

(** A [Result] for [id] arriving while call [c] is awaited. *)
Lemma result_resolves env res id c env0 st :
  res_guid res = id → awaiting id c env0 st →
  let st' := processMessage env (GResult res) st in
  calls st' !! c = Some (resolved res (pendingCall env0))
  ∧ outstandingRedeems st' !! id = None
  ∧ resultHandlers st' !! id = None
  ∧ ∀ c', c' ≠ c → calls st' !! c' = calls st !! c'.
Proof.
  intros Hg (_ & [Hh _] & _ & Hcall) st'. subst st' id.
  destruct (core_fields _ _ _ _ (processResult_core env res st))
    as (-> & -> & ->).
  rewrite Hh, !lookup_delete_eq, resolveCall_lookup.
  rewrite decide_True by done. rewrite Hcall.
  repeat split. intros c' Hc'.
  rewrite resolveCall_lookup. by rewrite decide_False.
Qed.

(** C1.  In a well-formed state (every reachable state is one), let
    [redeem] be called with a non-empty transaction id that is not
    outstanding.  Whatever happens next, so long as no [Result] for the id
    arrives and the call's timer does not fire, processing a [Result]
    whose guid is the id fulfils the promise of that call with that
    message, for good, removes the id from both maps and leaves every
    other call's promise as it was. *)
Theorem redeem_then_result env0 r cart user id st evs env1 res :
  wf st → id ≠ EmptyString → outstandingRedeems st !! id = None →
  res_guid res = id →
  let c := (redeem env0 r cart user id st).2 in
  let st1 := (redeem env0 r cart user id st).1 in
  silentFor id evs → untimed c evs →
  let st2 := run evs st1 in
  let st3 := processMessage env1 (GResult res) st2 in
  outcomeOf c st1 = Some Pending
  ∧ registered id c st1
  ∧ outcomeOf c st3 = Some (Fulfilled res)
  ∧ outstandingRedeems st3 !! id = None
  ∧ resultHandlers st3 !! id = None
  ∧ (∀ c', c' ≠ c → calls st3 !! c' = calls st2 !! c')
  ∧ (∀ evs', outcomeOf c (run evs' st3) = Some (Fulfilled res)).
Proof.
  intros Hwf Hid Hnone Hg c st1 Hq Ht st2 st3.
  assert (Hc : c = length (calls st)) by apply redeem_index.
  destruct (redeem_awaiting env0 r cart user id st Hwf Hid Hnone)
    as (Ha & _ & _).
  rewrite <- Hc in Ha. fold st1 in Ha.
  pose proof (run_awaiting evs id c env0 st1 Hq Ht Ha) as Ha2. fold st2 in Ha2.
  destruct (result_resolves env1 res id c env0 st2 Hg Ha2)
    as (Hcall & Ho & Hh & Hothers). fold st3 in Hcall, Ho, Hh, Hothers.
  assert (Hout : outcomeOf c st3 = Some (Fulfilled res)).
  { unfold outcomeOf. by rewrite Hcall. }
  destruct Ha as (_ & Hreg & _ & Hcall1).
  split; [unfold outcomeOf; by rewrite Hcall1|].
  repeat (split; [done|]).
  intros evs'. by apply run_settledAs.
Qed.

(** The states reached from a fresh connection are well formed. *)
Lemma reachable_wf rs evs : wf (run evs (initial rs)).
Proof. apply run_wf, wf_initial. Qed.

Lemma redeem_then_result_witness :
  let st1 := (redeem env_ok (redeem0 None) cart0 user0 "tx-1" st_ready).1 in
  let st2 := run [(env_ok, EvMessage 1 (GPing "p1" 1200));
                  (env_ok, EvRedeem (redeem0 None) cart0 user0 "tx-2")] st1 in
  let st3 := processMessage env_ok (GResult result0) st2 in
  outcomeOf 0 st1 = Some Pending
  ∧ outcomeOf 0 st3 = Some (Fulfilled result0)
  ∧ outstandingRedeems st3 !! "tx-1" = None
  ∧ resultHandlers st3 !! "tx-1" = None
  ∧ outcomeOf 1 st3 = Some Pending.
Proof.
  intros st1 st2 st3.
  destruct (redeem_then_result env_ok (redeem0 None) cart0 user0 "tx-1"
              st_ready
              [(env_ok, EvMessage 1 (GPing "p1" 1200));
               (env_ok, EvRedeem (redeem0 None) cart0 user0 "tx-2")]
              env_ok result0)
    as (Hp & _ & Hf & Ho & Hh & _).
  - intros g c. vm_compute. discriminate.
  - discriminate.
  - reflexivity.
  - reflexivity.
  - repeat constructor.
  - repeat constructor.
  - split; [exact Hp|]. split; [exact Hf|]. split; [exact Ho|].
    split; [exact Hh|]. reflexivity.
Defined.

(** The timer of an awaited call firing at or after its deadline. *)
Lemma timeout_rejects envT id c env0 st :
  (env_now env0 + resultWaitTimeout ≤ env_now envT)%Z →
  awaiting id c env0 st →
  let st' := step envT (EvResultTimeout c) st in
  calls st' !! c = Some (timedOut (pendingCall env0))
  ∧ registered id c st' ∧ wf st'
  ∧ outstandingRedeems st' = outstandingRedeems st
  ∧ resultHandlers st' = resultHandlers st.
Proof.
  intros Hle (Hwf & Hreg & _ & Hcall) st'.
  assert (E : st' = resultTimeout c st).
  { subst st'. simpl. rewrite Hcall. simpl.
    by rewrite (proj2 (Z.leb_le _ _) Hle). }
  rewrite E.
  destruct (core_fields _ _ _ _ (resultTimeout_core c st)) as (Ho & Hh & _).
  split; [|split; [|split; [by apply wf_timeout|done]]].
  - rewrite resultTimeout_lookup, decide_True by done. by rewrite Hcall.
  - unfold registered. by rewrite Ho, Hh.
Qed.

(** A [Result] never disturbs anything but the correlation state. *)
Lemma processResult_frame env r st :
  let st' := processMessage env (GResult r) st in
  handshake st' = handshake st ∧ socket st' = socket st ∧
  unsentQueue st' = unsentQueue st ∧ wire st' = wire st ∧
  intervals st' = intervals st ∧
  resendIntervalHandle st' = resendIntervalHandle st ∧
  readyState st' = readyState st ∧ ingame st' = ingame st ∧
  length (calls st') = length (calls st).
Proof.
  simpl. destruct (resultHandlers st !! res_guid r) as [c|]; [|done].
  unfold resolveCall. destruct (calls st !! c); simpl; [|done].
  by rewrite length_insert.
Qed.

(** A [Result] for an id neither map knows changes nothing. *)
Lemma processResult_unknown env r st :
  outstandingRedeems st !! res_guid r = None →
  resultHandlers st !! res_guid r = None →
  processMessage env (GResult r) st = st.
Proof.
  intros Ho Hh. simpl. rewrite Hh.
  rewrite (delete_id _ _ Ho), (delete_id _ _ Hh). by destruct st.
Qed.

(** C2.  In a well-formed state, let [redeem] be called with a non-empty
    transaction id that is not outstanding; its timer is set 10000 after
    the time of the call.  If no [Result] for the id is processed before
    the timer fires, the promise of the call is rejected with the
    time-out message, and stays so.  The firing removes nothing: both map
    entries of the id are still there afterwards and remain for as long as
    no [Result] for the id arrives.  A [Result] for the id that arrives
    after the time-out is processed like any other: it yields a
    well-formed state, removes both entries, leaves the promise rejected
    and every other call and the connection's other fields untouched;
    one more such [Result], finding no handler, changes nothing. *)
Theorem timeout_then_late_result env0 r cart user id st evs envT evs' :
  wf st → id ≠ EmptyString → outstandingRedeems st !! id = None →
  let c := (redeem env0 r cart user id st).2 in
  let st1 := (redeem env0 r cart user id st).1 in
  silentFor id evs → untimed c evs →
  (env_now env0 + 10000 ≤ env_now envT)%Z →
  silentFor id evs' →
  let st3 := step envT (EvResultTimeout c) (run evs st1) in
  let st4 := run evs' st3 in
  deadline <$> calls st1 !! c = Some (env_now env0 + 10000)%Z
  ∧ outcomeOf c st3 = Some (Rejected (ReasonText TimedOut))
  ∧ registered id c st3
  ∧ registered id c st4
  ∧ outcomeOf c st4 = Some (Rejected (ReasonText TimedOut))
  ∧ ∀ env' res, res_guid res = id →
      let st5 := processMessage env' (GResult res) st4 in
      wf st5
      ∧ outcomeOf c st5 = Some (Rejected (ReasonText TimedOut))
      ∧ outstandingRedeems st5 !! id = None
      ∧ resultHandlers st5 !! id = None
      ∧ (∀ c', c' ≠ c → calls st5 !! c' = calls st4 !! c')
      ∧ (handshake st5 = handshake st4 ∧ socket st5 = socket st4 ∧
         unsentQueue st5 = unsentQueue st4 ∧ wire st5 = wire st4 ∧
         intervals st5 = intervals st4 ∧ ingame st5 = ingame st4)
      ∧ (∀ env'' res', res_guid res' = id →
           processMessage env'' (GResult res') st5 = st5).
Proof.
  intros Hwf Hid Hnone c st1 Hq Ht Hle Hq' st3 st4.
  assert (Hc : c = length (calls st)) by apply redeem_index.
  destruct (redeem_awaiting env0 r cart user id st Hwf Hid Hnone)
    as (Ha & _ & _).
  rewrite <- Hc in Ha. fold st1 in Ha.
  pose proof (run_awaiting evs id c env0 st1 Hq Ht Ha) as Ha2.
  destruct (timeout_rejects envT id c env0 (run evs st1) Hle Ha2)
    as (Hcall3 & Hreg3 & Hwf3 & _). fold st3 in Hcall3, Hreg3, Hwf3.
  assert (Hset3 : settledAs c (Rejected (ReasonText TimedOut)) st3).
  { split; [|done]. unfold outcomeOf. by rewrite Hcall3. }
  pose proof (run_registered evs' id c st3 Hq' Hreg3) as Hreg4.
  pose proof (run_settledAs evs' c _ st3 Hset3) as Hset4.
  pose proof (run_wf evs' st3 Hwf3) as Hwf4.
  fold st4 in Hreg4, Hset4, Hwf4.
  destruct Ha as (_ & _ & _ & Hcall1).
  split; [by rewrite Hcall1|].
  split; [apply Hset3|]. split; [done|]. split; [done|].
  split; [apply Hset4|].
  intros env' res Hg st5.
  pose proof (step_settledAs env' (EvMessage 0 (GResult res)) c _ st4 Hset4)
    as Hset5.
  pose proof (wf_result env' res st4 Hwf4) as Hwf5.
  destruct (core_fields _ _ _ _ (processResult_core env' res st4))
    as (Ho5 & Hh5 & Hc5).
  fold st5 in Hwf5, Ho5, Hh5, Hc5.
  destruct Hreg4 as [Hh4 _].
  assert (Hout5 : outcomeOf c st5 = Some (Rejected (ReasonText TimedOut))).
  { destruct Hset4 as [Hv _]. unfold outcomeOf in *. rewrite Hc5, Hg, Hh4.
    rewrite resolveCall_lookup, decide_True by done.
    destruct (calls st4 !! c) as [call|]; [|done].
    injection Hv as Hv. change (Some (outcome (resolved res call)) = Some
      (Rejected (ReasonText TimedOut))).
    rewrite resolved_outcome; congruence. }
  assert (Ho5' : outstandingRedeems st5 !! id = None)
    by (rewrite Ho5, Hg; apply lookup_delete_eq).
  assert (Hh5' : resultHandlers st5 !! id = None)
    by (rewrite Hh5, Hg; apply lookup_delete_eq).
  split; [done|]. split; [done|]. split; [done|]. split; [done|].
  split; [|split].
  - intros c' Hc'. rewrite Hc5, Hg, Hh4.
    rewrite resolveCall_lookup. by rewrite decide_False.
  - pose proof (processResult_frame env' res st4) as F. simpl in F.
    fold st5 in F. tauto.
  - intros env'' res' Hg'. apply processResult_unknown; by rewrite Hg'.
Qed.

Lemma timeout_then_late_result_witness :
  let st1 := (redeem env_ok (redeem0 None) cart0 user0 "tx-1" st_ready).1 in
  let st3 := step env_late (EvResultTimeout 0)
               (run [(env_ok, EvMessage 1 (GPing "p1" 1200))] st1) in
  let st4 := run [(env_late, EvTick 1%positive)] st3 in
  let st5 := processMessage env_late (GResult result0) st4 in
  deadline <$> calls st1 !! 0 = Some 11000%Z
  ∧ outcomeOf 0 st3 = Some (Rejected (ReasonText TimedOut))
  ∧ registered "tx-1" 0 st4
  ∧ outcomeOf 0 st5 = Some (Rejected (ReasonText TimedOut))
  ∧ outstandingRedeems st5 !! "tx-1" = None
  ∧ resultHandlers st5 !! "tx-1" = None.
Proof.
  intros st1 st3 st4 st5.
  destruct (timeout_then_late_result env_ok (redeem0 None) cart0 user0 "tx-1"
              st_ready [(env_ok, EvMessage 1 (GPing "p1" 1200))] env_late
              [(env_late, EvTick 1%positive)])
    as (Hd & Ht & _ & Hr & _ & Hlate).
  - intros g c. vm_compute. discriminate.
  - discriminate.
  - reflexivity.
  - repeat constructor.
  - repeat constructor.
  - vm_compute. discriminate.
  - repeat constructor.
  - destruct (Hlate env_late result0) as (_ & Ho & Hm & Hh & _); [reflexivity|].
    split; [exact Hd|]. split; [exact Ht|]. split; [exact Hr|].
    split; [exact Ho|]. split; [exact Hm|exact Hh].
Defined.

(** * Further properties *)

(** ** Invariants of the correlation state *)

(** A property kept by the three methods that touch the correlation
    state, and blind to everything else, is kept by the event loop. *)
Lemma step_preserves (P : State → Prop) :
  (∀ st st', core st' = core st → P st → P st') →
  (∀ env r st, P st → P (processMessage env (GResult r) st)) →
  (∀ env r cart user id st, P st → P (redeem env r cart user id st).1) →
  (∀ c st, P st → P (resultTimeout c st)) →
  ∀ env ev st, P st → P (step env ev st).
Proof.
  intros Hsame Hres Hred Hto env ev st HP.
  pose proof (step_core env ev st) as H.
  destruct ev as [ws|ws msg| | | | |r cart user id|c| |];
    try (by eapply Hsame).
  - destruct msg; try (by eapply Hsame).
    destruct H as [H|H]; [by eapply Hsame|].
    eapply Hsame; [exact H|]. by apply Hres.
  - eapply Hsame; [exact H|]. by apply Hred.
  - destruct H as [H|H]; [by eapply Hsame|].
    eapply Hsame; [exact H|]. by apply Hto.
Qed.

Lemma run_preserves (P : State → Prop) :
  (∀ env ev st, P st → P (step env ev st)) →
  ∀ evs st, P st → P (run evs st).
Proof.
  intros Hstep evs. induction evs as [|[env ev] evs IH]; intros st HP; simpl;
    [done|]. by apply IH, Hstep.
Qed.

Lemma step_sameKeys env ev st : sameKeys st → sameKeys (step env ev st).
Proof.
  revert env ev st. apply step_preserves.
  - intros st st' (Ho & Hh & _)%core_same HP g. rewrite Ho, Hh. apply HP.
  - intros env r st HP g.
    destruct (core_fields _ _ _ _ (processResult_core env r st)) as (-> & -> & _).
    rewrite !lookup_delete. case_decide; [|apply HP].
    split; intros [? ?]; done.
  - intros env r cart user id st HP g.
    destruct (redeem_core env r cart user id st) as [[e E]|(_ & _ & E)];
      destruct (core_fields _ _ _ _ E) as (-> & -> & _); [apply HP|].
    rewrite !lookup_insert. case_decide; [|apply HP].
    split; eauto.
  - intros c st HP g.
    destruct (core_fields _ _ _ _ (resultTimeout_core c st)) as (-> & -> & _).
    apply HP.
Qed.

Lemma step_keyedByGuid env ev st : keyedByGuid st → keyedByGuid (step env ev st).
Proof.
  revert env ev st. apply step_preserves.
  - intros st st' (Ho & _ & _)%core_same HP g m. rewrite Ho. apply HP.
  - intros env r st HP g m.
    destruct (core_fields _ _ _ _ (processResult_core env r st)) as (-> & _ & _).
    intros [_ Hm]%lookup_delete_Some. by apply HP.
  - intros env r cart user id st HP g m.
    destruct (redeem_core env r cart user id st) as [[e E]|(Hid & _ & E)];
      destruct (core_fields _ _ _ _ E) as (-> & _ & _); [apply HP|].
    intros [[<- <-]|[_ Hm]]%lookup_insert_Some; [done|by apply HP].
  - intros c st HP g m.
    destruct (core_fields _ _ _ _ (resultTimeout_core c st)) as (-> & _ & _).
    apply HP.
Qed.


Lemma raceSettled_resolved r call : raceSettled call → raceSettled (resolved r call).
Proof.
  unfold raceSettled, resolved. simpl.
  destruct (inner call) as [|r'|e'], (outcome call) as [|r''|e'']; simpl;
    try done; intros H; try (destruct H as [H|[H1 H2]]); try done; eauto.
Qed.

Lemma raceSettled_timedOut call : raceSettled call → raceSettled (timedOut call).
Proof.
  unfold raceSettled, timedOut. simpl.
  destruct (outcome call) as [|r|e]; simpl; try done.
  - intros _. by right.
  - intros [H|[-> _]]; [by left|by right].
Qed.

Lemma step_raceSettled env ev st :
  Forall raceSettled (calls st) → Forall raceSettled (calls (step env ev st)).
Proof.
  revert env ev st. apply step_preserves.
  - by intros st st' (_ & _ & ->)%core_same.
  - intros env r st HP.
    destruct (core_fields _ _ _ _ (processResult_core env r st)) as (_ & _ & ->).
    destruct (resultHandlers st !! res_guid r) as [c|]; [|done].
    apply Forall_lookup. intros i call. rewrite resolveCall_lookup.
    case_decide.
    + destruct (calls st !! c) as [call0|] eqn:E; [|done].
      intros [= <-]. apply raceSettled_resolved.
      by eapply Forall_lookup_1.
    + by apply Forall_lookup_1.
  - intros env r cart user id st HP.
    destruct (redeem_core env r cart user id st) as [[e E]|(_ & _ & E)];
      destruct (core_fields _ _ _ _ E) as (_ & _ & ->);
      apply Forall_app; split; try done; repeat constructor.
  - intros c st HP.
    apply Forall_lookup. intros i call. rewrite resultTimeout_lookup.
    case_decide.
    + destruct (calls st !! c) as [call0|] eqn:E; [|done].
      intros [= <-]. apply raceSettled_timedOut.
      by eapply Forall_lookup_1.
    + by apply Forall_lookup_1.
Qed.

(** X1.  In every state a fresh connection can reach, the outstanding
    redeems and the result handlers have the same keys. *)
Theorem maps_share_keys rs evs g :
  is_Some (outstandingRedeems (run evs (initial rs)) !! g)
  ↔ is_Some (resultHandlers (run evs (initial rs)) !! g).
Proof.
  revert g. change (sameKeys (run evs (initial rs))).
  apply run_preserves; [apply step_sameKeys|].
  intros g. simpl. by rewrite !lookup_empty.
Qed.

(** X2.  In every state a fresh connection can reach, each outstanding
    record is a [Redeem] message whose guid is the key it is filed under,
    and the empty string is never a key. *)
Theorem outstanding_keyed_by_guid rs evs g m :
  outstandingRedeems (run evs (initial rs)) !! g = Some m →
  guid m = g ∧ messageType m = MessageType.Redeem ∧ g ≠ EmptyString.
Proof.
  revert g m. change (keyedByGuid (run evs (initial rs))).
  apply run_preserves; [apply step_keyedByGuid|].
  intros g m. simpl. by rewrite lookup_empty.
Qed.

Lemma outstanding_keyed_by_guid_witness :
  guid msg1 = "tx-1" ∧ messageType msg1 = MessageType.Redeem
  ∧ "tx-1" ≠ EmptyString.
Proof.
  apply (outstanding_keyed_by_guid {[ 1 := OPEN ]}
           [(env_ok, EvSetSocket (Some 1));
            (env_ok, EvMessage 1 (GHello "a1" 990 "0.1.0"));
            (env_ok, EvRedeem (redeem0 None) cart0 user0 "tx-1")]).
  reflexivity.
Defined.



(** X4.  In every state a fresh connection can reach, a [Result] whose
    guid is not outstanding changes nothing at all. *)
Theorem untracked_result_is_ignored rs evs env r :
  outstandingRedeems (run evs (initial rs)) !! res_guid r = None →
  processMessage env (GResult r) (run evs (initial rs)) = run evs (initial rs).
Proof.
  intros Ho. apply processResult_unknown; [done|].
  assert (H : sameKeys (run evs (initial rs))).
  { apply run_preserves; [apply step_sameKeys|].
    intros g. simpl. by rewrite !lookup_empty. }
  destruct (resultHandlers _ !! res_guid r) eqn:E; [|done].
  destruct (proj2 (H (res_guid r))) as [m Hm]; [eauto|congruence].
Qed.

Lemma untracked_result_is_ignored_witness :
  processMessage env_ok (GResult result0) st_ready = st_ready.
Proof.
  apply (untracked_result_is_ignored {[ 1 := OPEN ]}
           [(env_ok, EvSetSocket (Some 1));
            (env_ok, EvMessage 1 (GHello "a1" 990 "0.1.0"))] env_ok result0).
  reflexivity.
Defined.

(** X5.  In every state a fresh connection can reach, the promise
    returned by a call of [redeem] is pending exactly while its own
    promise is pending and its timer has not fired; once fulfilled it
    carries the message its handler was given; once rejected it carries
    the reason of its own promise or, the timer having fired, the
    time-out text. *)
Theorem race_agrees_with_racers rs evs c call :
  calls (run evs (initial rs)) !! c = Some call →
  match outcome call with
  | Pending => inner call = Pending ∧ timerFired call = false
  | Fulfilled r => inner call = Fulfilled r
  | Rejected e =>
      inner call = Rejected e
      ∨ (e = ReasonText TimedOut ∧ timerFired call = true)
  end.
Proof.
  intros Hc. change (raceSettled call).
  eapply Forall_lookup_1; [|exact Hc].
  apply (run_preserves (λ st, Forall raceSettled (calls st)));
    [apply step_raceSettled|]. constructor.
Qed.

Lemma race_agrees_with_racers_witness :
  inner (pendingCall env_ok) = Pending ∧ timerFired (pendingCall env_ok) = false.
Proof.
  apply (race_agrees_with_racers {[ 1 := OPEN ]}
           [(env_ok, EvRedeem (redeem0 None) cart0 user0 "tx-1")]
           0 (pendingCall env_ok)).
  reflexivity.
Defined.

(** ** What goes on the wire *)

(** One turn of the event loop either leaves the wire and the resend
    queue alone or is one call of [sendMessage]. *)
Lemma step_sends env ev st :
  (wire (step env ev st) = wire st ∧
   unsentQueue (step env ev st) = unsentQueue st)
  ∨ ∃ m st0,
      step env ev st = (sendMessage env m st0).1 ∧
      wire st0 = wire st ∧ socket st0 = socket st ∧
      readyState st0 = readyState st ∧
      (handshake st0 = handshake st ∨ grantsHandshake ev = true) ∧
      (unsentQueue st0 = unsentQueue st ∨ unsentQueue st = m :: unsentQueue st0).
Proof.
  destruct ev as [ws|ws msg|ws|ws|ws|h|r cart user id|c|m|b]; simpl;
    try (by left).
  - left. unfold setSocket.
    destruct (isConnected st); [destruct (socket st)|]; by destruct ws.
  - case_bool_decide; [|by left].
    destruct msg as [g ts v|g ts|r|g ts b|tag g ts]; try (by left).
    + right. eexists _, (set_handshake st true). split; [reflexivity|].
      simpl. auto 10.
    + right. eexists _, st. split; [reflexivity|]. auto 10.
    + left. pose proof (processResult_frame env r st) as F. simpl in F. tauto.
  - left. case_bool_decide; [|done].
    unfold onClose, setIngame, clearInterval. simpl.
    by destruct (resendIntervalHandle st).
  - destruct (intervals st !! h); [|by left].
    unfold tryResendFromQueue.
    destruct (unsentQueue st) as [|m rest] eqn:Hq; [left; by rewrite Hq|].
    right. exists m, (set_unsentQueue st rest). split; [done|].
    simpl. auto 10.
  - unfold redeem. destruct (String.eqb id EmptyString); [by left|]. simpl.
    destruct (outstandingRedeems st !! id); [by left|].
    right. eexists _, _. split; [reflexivity|]. simpl. auto 10.
  - left. destruct (calls st !! c) as [call|] eqn:Hc; [|done].
    destruct (_ && _); [|done]. unfold resultTimeout. by rewrite Hc.
  - right. exists m, st. auto 10.
Qed.

(** X6.  One turn of the event loop writes at most one message, and
    only to the socket that was bound when the turn began and was open. *)
Theorem writes_only_to_open_bound_socket env ev st :
  wire (step env ev st) = wire st
  ∨ ∃ ws m, wire (step env ev st) = wire st ++ [(ws, m)]
            ∧ socket st = Some ws ∧ readyState st !! ws = Some OPEN.
Proof.
  destruct (step_sends env ev st)
    as [[Hw _]|(m & st0 & -> & Hw & Hs & Hr & _)]; [by left|].
  pose proof (sendMessage_effect env m st0) as He.
  destruct (sendMessage_cases env m st0)
    as [(_ & E)|[(_ & _ & _ & E)|[(_ & _ & e & _ & E)|(Hc & _ & _ & ws & Hws & E)]]];
    rewrite E in *; simpl in *; try (left; congruence).
  right. exists ws, m. rewrite <- Hw, <- Hs, <- Hr.
  destruct (isConnected_socket st0 Hc) as (ws' & Hws' & Hopen).
  split; [done|]. split; [done|]. congruence.
Qed.

Ltac send_frame_handshake :=
  match goal with
  | |- handshake (sendMessage ?e ?m ?s).1 = _ =>
      let H := fresh in
      pose proof (sendMessage_frame e m s) as H; cbv zeta in H;
      destruct H as (-> & _)
  end.

Lemma step_handshake env ev st :
  grantsHandshake ev = false → handshake st = false →
  handshake (step env ev st) = false.
Proof.
  intros Hg Hh.
  destruct ev as [ws|ws msg|ws|ws|ws|h|r cart user id|c|m|b]; simpl in Hg;
    unfold step; try done.
  - unfold setSocket.
    destruct (isConnected st); [destruct (socket st)|]; by destruct ws.
  - case_bool_decide; [|done].
    destruct msg as [g ts v|g ts|r|g ts b|tag g ts]; try done.
    + unfold processMessage. by send_frame_handshake.
    + pose proof (processResult_frame env r st) as F. cbv zeta in F.
      by destruct F as (-> & _).
  - case_bool_decide; [|done].
    unfold onClose, setIngame, clearInterval. simpl.
    by destruct (resendIntervalHandle st).
  - destruct (intervals st !! h); [|done]. unfold tryResendFromQueue.
    destruct (unsentQueue st) as [|m rest]; [done|].
    by send_frame_handshake.
  - unfold redeem. destruct (String.eqb id EmptyString); [done|]. cbv zeta.
    destruct (outstandingRedeems st !! _); [done|]. cbn [fst].
    by send_frame_handshake.
  - destruct (calls st !! c) as [call|] eqn:Hc; [|done].
    destruct (_ && _); [|done]. unfold resultTimeout. by rewrite Hc.
  - by send_frame_handshake.
Qed.

(** X7.  While the handshake flag is off and nothing sets it (no
    [Hello], no [stressTestSetHandshake(true)]), whatever else happens,
    rebinding included, the only messages written to a socket are
    [Pong]s. *)
Theorem only_pongs_before_handshake evs st :
  handshake st = false →
  Forall (λ ee, grantsHandshake ee.2 = false) evs →
  handshake (run evs st) = false
  ∧ ∃ sent, wire (run evs st) = wire st ++ sent
            ∧ Forall (λ wm, isPong wm.2 = true) sent.
Proof.
  revert st. induction evs as [|[env ev] evs IH]; intros st Hh Hg; simpl.
  { split; [done|]. exists []. by rewrite app_nil_r. }
  apply Forall_cons in Hg as [Hg Hgs]. simpl in Hg.
  pose proof (step_handshake env ev st Hg Hh) as Hh'.
  destruct (IH _ Hh' Hgs) as (Hfin & sent & Hw & Hp).
  split; [done|].
  destruct (step_sends env ev st)
    as [[Hw0 _]|(m & st0 & E & Hw0 & _ & _ & [Hh0|?] & _)]; [| |congruence].
  { exists sent. by rewrite Hw, Hw0. }
  destruct (sendMessage_cases env m st0)
    as [(_ & E')|[(_ & _ & _ & E')|[(_ & _ & e & _ & E')|(_ & Hgate & _ & ws & _ & E')]]];
    rewrite E' in E;
    try (exists sent; split; [rewrite Hw, E; simpl; congruence|done]).
  exists ((ws, m) :: sent). split.
  - rewrite Hw, E. simpl. rewrite Hw0. by rewrite <- app_assoc.
  - constructor; [|done]. simpl. destruct Hgate; [congruence|done].
Qed.

Lemma only_pongs_before_handshake_witness :
  let evs := [(env_ok, EvMessage 1 (GPing "p1" 995));
              (env_ok, EvRedeem (redeem0 None) cart0 user0 "tx-1");
              (env_late, EvTick 1%positive)] in
  handshake (run evs st_bound) = false
  ∧ ∃ sent, wire (run evs st_bound) = wire st_bound ++ sent
            ∧ Forall (λ wm, isPong wm.2 = true) sent.
Proof.
  apply (only_pongs_before_handshake
           [(env_ok, EvMessage 1 (GPing "p1" 995));
            (env_ok, EvRedeem (redeem0 None) cart0 user0 "tx-1");
            (env_late, EvTick 1%positive)] st_bound).
  - reflexivity.
  - repeat constructor.
Defined.

(** ** Nothing is lost, nothing is written without a connection *)

Lemma step_conserves env ev st :
  (∀ m, m ∈ unsentQueue st →
        m ∈ unsentQueue (step env ev st) ∨ ∃ ws, (ws, m) ∈ wire (step env ev st))
  ∧ (∀ x, x ∈ wire st → x ∈ wire (step env ev st)).
Proof.
  destruct (step_sends env ev st)
    as [[-> ->]|(m' & st0 & -> & Hw & _ & _ & _ & Hq)]; [by eauto|].
  pose proof (sendMessage_effect env m' st0) as He.
  destruct ((sendMessage env m' st0).2); destruct He as [Hq' Hw'].
  - destruct Hw' as (ws & _ & Hw'). rewrite Hq', Hw', Hw. split.
    + intros m Hm. destruct Hq as [->|Hq]; [by left|].
      rewrite Hq in Hm. apply elem_of_cons in Hm as [->|Hm]; [|by left].
      right. exists ws. apply elem_of_app. right. by apply list_elem_of_In; left.
    + intros x Hx. apply elem_of_app. by left.
  - rewrite Hq', Hw', Hw. split; [|done].
    intros m Hm. left. apply elem_of_app.
    destruct Hq as [->|Hq]; [by left|].
    rewrite Hq in Hm. apply elem_of_cons in Hm as [->|Hm]; [|by left].
    right. by apply list_elem_of_In; left.
Qed.

(** X8.  A message on the resend queue is never dropped: whatever
    happens next, it is still on the queue or has been written to a
    socket; and what has been written stays written. *)
Theorem queued_message_is_never_lost evs st m :
  m ∈ unsentQueue st →
  (m ∈ unsentQueue (run evs st) ∨ ∃ ws, (ws, m) ∈ wire (run evs st))
  ∧ ∀ x, x ∈ wire st → x ∈ wire (run evs st).
Proof.
  intros Hm.
  enough (∀ st, (m ∈ unsentQueue st ∨ ∃ ws, (ws, m) ∈ wire st) →
            (m ∈ unsentQueue (run evs st) ∨ ∃ ws, (ws, m) ∈ wire (run evs st))
            ∧ ∀ x, x ∈ wire st → x ∈ wire (run evs st)) as H
    by (apply H; by left).
  clear st Hm. induction evs as [|[env ev] evs IH]; intros st Hm; simpl; [done|].
  destruct (step_conserves env ev st) as [Hq Hw].
  destruct (IH (step env ev st)) as [IH1 IH2].
  - destruct Hm as [Hm|[ws Hm]]; [by apply Hq|]. right. exists ws. by apply Hw.
  - split; [done|]. intros x Hx. by apply IH2, Hw.
Qed.

Lemma queued_message_is_never_lost_witness :
  let st := (sendMessage env_ok msg1 st_fresh).1 in
  let evs := [(env_ok, EvSetSocket (Some 1));
              (env_ok, EvMessage 1 (GHello "a1" 990 "0.1.0"));
              (env_late, EvTick 1%positive)] in
  (msg1 ∈ unsentQueue (run evs st) ∨ ∃ ws, (ws, msg1) ∈ wire (run evs st))
  ∧ ∀ x, x ∈ wire st → x ∈ wire (run evs st).
Proof.
  apply (queued_message_is_never_lost
           [(env_ok, EvSetSocket (Some 1));
            (env_ok, EvMessage 1 (GHello "a1" 990 "0.1.0"));
            (env_late, EvTick 1%positive)]
           (sendMessage env_ok msg1 st_fresh).1 msg1).
  vm_compute. constructor 1.
Defined.

Lemma step_close_any env ws st :
  step env (EvClose ws) st =
    if bool_decide (ws ∈ listening st)
    then onClose (set_readyState st (<[ws:=CLOSED]> (readyState st)))
    else set_readyState st (<[ws:=CLOSED]> (readyState st)).
Proof. done. Qed.






(** X10.  Without an open socket each tick moves the head of the resend
    queue to its tail and writes nothing: after as many ticks as a prefix
    of the queue is long, that prefix stands behind the rest, so a full
    round of ticks leaves the queue as it was. *)
Theorem disconnected_ticks_rotate_queue envs h q1 q2 st :
  isConnected st = false → is_Some (intervals st !! h) →
  unsentQueue st = q1 ++ q2 → length envs = length q1 →
  unsentQueue (run (ticks h envs) st) = q2 ++ q1
  ∧ wire (run (ticks h envs) st) = wire st.
Proof.
  revert q1 q2 st.
  induction envs as [|env envs IH]; intros q1 q2 st Hc [p Hi] Hq Hlen.
  { destruct q1; [|done]. simpl in *. by rewrite app_nil_r. }
  destruct q1 as [|m q1]; [done|]. simpl in Hlen, Hq. simpl.
  rewrite Hi. unfold tryResendFromQueue. rewrite Hq.
  set (st0 := set_unsentQueue st (q1 ++ q2)).
  assert (Hc0 : isConnected st0 = false) by done.
  pose proof (sendMessage_frame env m st0)
    as (_ & Hs' & _ & _ & _ & Hr' & _ & Hi' & _).
  destruct (sendMessage_cases env m st0)
    as [(_ & E)|[(? & _)|[(? & _)|(? & _)]]]; [|congruence..].
  destruct (IH q1 (q2 ++ [m]) (sendMessage env m st0).1) as [Hq' Hw'].
  - unfold isConnected in *. by rewrite Hs', Hr'.
  - rewrite Hi'. simpl. eauto.
  - rewrite E. simpl. by rewrite <- app_assoc.
  - lia.
  - fold (ticks h envs). rewrite Hq', Hw', E. simpl.
    split; [|done]. by rewrite <- app_assoc.
Qed.

Lemma disconnected_ticks_rotate_queue_witness :
  let st := run [(env_ok, EvSetSocket (Some 1)); (env_ok, EvSend msg1);
                 (env_ok, EvSend msg2); (env_ok, EvClose 1);
                 (env_ok, EvSetSocket (Some 2))] st_fresh in
  unsentQueue st = [msg1; msg2]
  ∧ unsentQueue (run (ticks 2%positive [env_ok]) st) = [msg2; msg1]
  ∧ wire (run (ticks 2%positive [env_ok]) st) = wire st.
Proof.
  intros st. split; [reflexivity|].
  apply (disconnected_ticks_rotate_queue [env_ok] 2%positive [msg1] [msg2] st).
  - reflexivity.
  - vm_compute. eauto.
  - reflexivity.
  - reflexivity.
Defined.

(** X11.  A [redeem] that cannot be sent because no socket is open is
    registered all the same: its promise is pending, both maps hold the
    id, nothing is written, and the message stands last on the resend
    queue. *)
Theorem redeem_without_socket_is_registered env r cart user id st :
  isConnected st = false → id ≠ EmptyString →
  outstandingRedeems st !! id = None →
  let st' := (redeem env r cart user id st).1 in
  let c := (redeem env r cart user id st).2 in
  unsentQueue st' = unsentQueue st ++ [redeemMessage env r cart user id]
  ∧ wire st' = wire st
  ∧ registered id c st'
  ∧ outstandingRedeems st' !! id = Some (redeemMessage env r cart user id)
  ∧ calls st' !! c = Some (pendingCall env).
Proof.
  intros Hc Hid Hnone st' c. subst st' c.
  rewrite (redeem_registers env r cart user id st Hid Hnone). simpl.
  set (msg := redeemMessage env r cart user id).
  set (st2 := set_maps _ _ _).
  destruct (sendMessage_cases env msg st2)
    as [(_ & E)|[(? & _)|[(? & _)|(? & _)]]];
    [|by (change (isConnected st2) with (isConnected st) in *; congruence)..].
  rewrite E. subst st2. unfold registered. simpl.
  rewrite !lookup_insert_eq. split; [done|]. split; [done|].
  split; [split; eauto|]. split; [done|].
  by rewrite lookup_app_r, Nat.sub_diag.
Qed.

Lemma redeem_without_socket_is_registered_witness :
  let st' := (redeem env_ok (redeem0 None) cart0 user0 "tx-1" st_fresh).1 in
  unsentQueue st' = unsentQueue st_fresh ++ [msg1]
  ∧ wire st' = wire st_fresh
  ∧ registered "tx-1" 0 st'
  ∧ outstandingRedeems st' !! "tx-1" = Some msg1
  ∧ calls st' !! 0 = Some (pendingCall env_ok).
Proof.
  apply (redeem_without_socket_is_registered env_ok (redeem0 None) cart0 user0
           "tx-1" st_fresh).
  - reflexivity.
  - discriminate.
  - reflexivity.
Defined.

(** ** Timers across rebinding *)

Lemma setSocket_some w st :
  let st' := setSocket (Some w) st in
  handshake st' = false ∧ socket st' = Some w
  ∧ resendIntervalHandle st' = Some (nextTimer st)
  ∧ intervals st' = <[nextTimer st := resendInterval]> (intervals st)
  ∧ nextTimer st' = Pos.succ (nextTimer st)
  ∧ listening st' = {[ w ]} ∪ listening st
  ∧ unsentQueue st' = unsentQueue st ∧ wire st' = wire st
  ∧ ingame st' = ingame st ∧ core st' = core st.
Proof.
  unfold setSocket.
  destruct (isConnected st); [destruct (socket st)|]; done.
Qed.

(** X12.  When a socket is bound while an earlier socket is still
    listened to, the [close] event of the earlier socket clears the
    interval started for the new one: the connection keeps the handle of
    a timer that no longer runs, ticks of that handle do nothing, and the
    intervals that ran before the rebinding keep running. *)
Theorem superseded_close_clears_current_timer env old w st :
  old ∈ listening st → intervals st !! nextTimer st = None →
  let st2 := step env (EvClose old) (setSocket (Some w) st) in
  socket st2 = Some w
  ∧ resendIntervalHandle st2 = Some (nextTimer st)
  ∧ intervals st2 = intervals st
  ∧ ingame st2 = false
  ∧ ∀ env', step env' (EvTick (nextTimer st)) st2 = st2.
Proof.
  intros Hold Hfresh st2.
  destruct (setSocket_some w st) as (_ & Hs & Hh & Hi & _ & Hl & _).
  assert (E : st2 = onClose (set_readyState (setSocket (Some w) st)
                 (<[old:=CLOSED]> (readyState (setSocket (Some w) st))))).
  { subst st2. apply step_close. rewrite Hl. apply elem_of_union. by right. }
  set (st1 := set_readyState _ _) in E.
  destruct (onClose_effect st1)
    as (Hin & _ & Hsock & _ & Hh' & _ & _ & _ & _ & Hclr & _).
  assert (Hiv : intervals st2 = intervals st).
  { rewrite E, (Hclr (nextTimer st)) by exact Hh.
    change (intervals st1) with (intervals (setSocket (Some w) st)).
    rewrite Hi, delete_insert_eq. by apply delete_id. }
  split; [rewrite E, Hsock; exact Hs|].
  split; [rewrite E, Hh'; exact Hh|].
  split; [exact Hiv|]. split; [by rewrite E|].
  intros env'. unfold step. by rewrite Hiv, Hfresh.
Qed.

Lemma superseded_close_clears_current_timer_witness :
  let st2 := step env_ok (EvClose 1) (setSocket (Some 2) st_ready) in
  socket st2 = Some 2
  ∧ resendIntervalHandle st2 = Some (nextTimer st_ready)
  ∧ intervals st2 = intervals st_ready
  ∧ ingame st2 = false
  ∧ ∀ env', step env' (EvTick (nextTimer st_ready)) st2 = st2.
Proof.
  apply (superseded_close_clears_current_timer env_ok 1 2 st_ready).
  - vm_compute. constructor 1.
  - reflexivity.
Defined.

Ltac send_frame_timers :=
  match goal with
  | |- context [(sendMessage ?e ?m ?s).1] =>
      let H := fresh in
      pose proof (sendMessage_frame e m s) as H; cbv zeta in H;
      destruct H as (_ & _ & _ & _ & -> & _ & _ & -> & -> & _)
  end.

(** What one turn does to the timers. *)
Lemma step_timers env ev st :
  match ev with
  | EvSetSocket (Some _) =>
      timersOf (step env ev st) =
        (Some (nextTimer st),
         <[nextTimer st := resendInterval]> (intervals st),
         Pos.succ (nextTimer st))
  | EvClose _ =>
      timersOf (step env ev st) = timersOf st
      ∨ ∃ h, resendIntervalHandle st = Some h ∧
             timersOf (step env ev st) =
               (Some h, delete h (intervals st), nextTimer st)
  | _ => timersOf (step env ev st) = timersOf st
  end.
Proof.
  unfold timersOf.
  destruct ev as [ws|ws msg|ws|ws|ws|h|r cart user id|c|m|b]; try done.
  - destruct ws as [w|].
    + destruct (setSocket_some w st) as (_ & _ & Hh & Hi & Hn & _).
      cbv zeta in Hh, Hi, Hn. unfold step. by rewrite Hh, Hi, Hn.
    + unfold step, setSocket.
      destruct (isConnected st); [destruct (socket st)|]; done.
  - unfold step. case_bool_decide; [|done].
    destruct msg as [g ts v|g ts|r|g ts b|tag g ts]; try done.
    + unfold processMessage. by send_frame_timers.
    + unfold processMessage. by send_frame_timers.
    + unfold processMessage.
      destruct (resultHandlers st !! res_guid r) as [c|]; [|done].
      unfold resolveCall. by destruct (calls st !! c).
  - rewrite step_close_any. destruct (bool_decide _); [|by left].
    unfold onClose, setIngame, clearInterval. simpl.
    destruct (resendIntervalHandle st) as [h|] eqn:Hh; simpl; rewrite ?Hh;
      [|by left].
    right. by exists h.
  - unfold step. destruct (intervals st !! h); [|done].
    unfold tryResendFromQueue. destruct (unsentQueue st) as [|m rest]; [done|].
    by send_frame_timers.
  - unfold step, redeem. destruct (String.eqb id EmptyString); [done|]. cbv zeta.
    destruct (outstandingRedeems st !! _); [done|]. cbn [fst].
    by send_frame_timers.
  - unfold step. destruct (calls st !! c) as [call|] eqn:Hc; [|done].
    destruct (_ && _); [|done]. unfold resultTimeout. by rewrite Hc.
  - unfold step. by send_frame_timers.
Qed.

Lemma timers_fields st h iv n :
  timersOf st = (h, iv, n) →
  resendIntervalHandle st = h ∧ intervals st = iv ∧ nextTimer st = n.
Proof. unfold timersOf. by intros [= -> -> ->]. Qed.

Lemma timersFresh_same st st' :
  timersOf st' = timersOf st → timersFresh st → timersFresh st'.
Proof.
  unfold timersOf, timersFresh. by intros [= -> -> ->].
Qed.

Lemma step_timersFresh env ev st : timersFresh st → timersFresh (step env ev st).
Proof.
  intros HP. pose proof (step_timers env ev st) as H.
  destruct ev as [[w|]|ws msg|ws|ws|ws|h|r cart user id|c|m|b];
    try (by eapply timersFresh_same).
  - destruct HP as [Hiv Hh]. apply timers_fields in H as (H1 & H2 & H3).
    unfold timersFresh. rewrite H1, H2, H3. split.
    + intros h p [[<- <-]|[_ Hp]]%lookup_insert_Some; [split; [done|lia]|].
      destruct (Hiv h p Hp). split; [done|lia].
    + intros h [= <-]. lia.
  - destruct H as [H|(h & Hh & H)]; [by eapply timersFresh_same|].
    destruct HP as [Hiv Hhl]. apply timers_fields in H as (H1 & H2 & H3).
    unfold timersFresh. rewrite H1, H2, H3. split.
    + intros h' p [_ Hp]%lookup_delete_Some. by apply Hiv.
    + intros h' [= <-]. by apply Hhl.
Qed.

(** X13.  In every state a fresh connection can reach, every running
    interval has period 500 and the handle the next [setInterval] will
    return belongs to no running interval: a bind always starts a timer
    of its own. *)
Theorem running_timers_are_resend_timers rs evs :
  let st := run evs (initial rs) in
  intervals st !! nextTimer st = None
  ∧ ∀ h p, intervals st !! h = Some p → p = 500%Z.
Proof.
  intros st.
  assert (H : timersFresh st).
  { apply run_preserves; [apply step_timersFresh|].
    split; simpl; [intros h p|intros h]; [by rewrite lookup_empty|done]. }
  destruct H as [Hiv _]. split.
  - destruct (intervals st !! nextTimer st) as [p|] eqn:E; [|done].
    destruct (Hiv _ _ E). lia.
  - intros h p Hp. by destruct (Hiv h p Hp).
Qed.

(** ** Resubmitting a transaction id *)

Lemma redeem_duplicate env r cart user id st :
  id ≠ EmptyString → is_Some (outstandingRedeems st !! id) →
  redeem env r cart user id st =
    (set_calls st (calls st ++ [rejectedCall env (DuplicateRedeem id)]),
     length (calls st)).
Proof.
  intros Hid [m Hm]. unfold redeem.
  destruct (String.eqb_spec id EmptyString) as [|_]; [done|].
  simpl. by rewrite Hm.
Qed.

(** X14.  Once the [Result] for a transaction id has been processed the
    id is free again: a second [redeem] with it is registered as a new
    call with a pending promise, and the first call keeps the result it
    was fulfilled with. *)
Theorem result_frees_the_id env0 r cart user id st evs env1 res env2 r' cart' user' :
  wf st → id ≠ EmptyString → outstandingRedeems st !! id = None →
  res_guid res = id →
  let c := (redeem env0 r cart user id st).2 in
  let st1 := (redeem env0 r cart user id st).1 in
  silentFor id evs → untimed c evs →
  let st3 := processMessage env1 (GResult res) (run evs st1) in
  let c' := (redeem env2 r' cart' user' id st3).2 in
  let st4 := (redeem env2 r' cart' user' id st3).1 in
  c' ≠ c
  ∧ registered id c' st4
  ∧ outcomeOf c' st4 = Some Pending
  ∧ outcomeOf c st4 = Some (Fulfilled res).
Proof.
  intros Hwf Hid Hnone Hg c st1 Hq Ht st3 c' st4.
  assert (Hc : c = length (calls st)) by apply redeem_index.
  destruct (redeem_awaiting env0 r cart user id st Hwf Hid Hnone) as (Ha & _ & _).
  rewrite <- Hc in Ha. fold st1 in Ha.
  pose proof (run_awaiting evs id c env0 st1 Hq Ht Ha) as Ha2.
  destruct (result_resolves env1 res id c env0 (run evs st1) Hg Ha2)
    as (Hcall & Ho & _ & _). fold st3 in Hcall, Ho.
  assert (Hwf3 : wf st3) by (apply wf_result, Ha2).
  assert (Hc' : c' = length (calls st3)) by apply redeem_index.
  destruct (redeem_awaiting env2 r' cart' user' id st3 Hwf3 Hid Ho)
    as ((_ & Hreg & _ & Hnew) & Hcalls & _).
  rewrite <- Hc' in Hreg, Hnew. fold st4 in Hreg, Hnew, Hcalls.
  pose proof (lookup_lt_Some _ _ _ Hcall) as Hlt.
  split; [lia|]. split; [done|]. unfold outcomeOf.
  split; [by rewrite Hnew|].
  by rewrite Hcalls, lookup_app_l, Hcall.
Qed.

Lemma result_frees_the_id_witness :
  let st1 := (redeem env_ok (redeem0 None) cart0 user0 "tx-1" st_ready).1 in
  let st3 := processMessage env_ok (GResult result0) st1 in
  let st4 := (redeem env_late (redeem0 None) cart0 user0 "tx-1" st3).1 in
  1 ≠ 0
  ∧ registered "tx-1" 1 st4
  ∧ outcomeOf 1 st4 = Some Pending
  ∧ outcomeOf 0 st4 = Some (Fulfilled result0).
Proof.
  apply (result_frees_the_id env_ok (redeem0 None) cart0 user0 "tx-1" st_ready
           [] env_ok result0 env_late (redeem0 None) cart0 user0).
  - intros g c. vm_compute. discriminate.
  - discriminate.
  - reflexivity.
  - reflexivity.
  - constructor.
  - constructor.
Defined.

(** X15.  A time-out does not free the transaction id: as long as no
    [Result] for it has been processed, a new [redeem] with the same id
    is rejected at once as a duplicate, registers nothing and sends
    nothing. *)
Theorem timeout_keeps_the_id_taken env0 r cart user id st evs envT evs' env2 r' cart' user' :
  wf st → id ≠ EmptyString → outstandingRedeems st !! id = None →
  let c := (redeem env0 r cart user id st).2 in
  let st1 := (redeem env0 r cart user id st).1 in
  silentFor id evs → untimed c evs →
  (env_now env0 + 10000 ≤ env_now envT)%Z →
  silentFor id evs' →
  let st4 := run evs' (step envT (EvResultTimeout c) (run evs st1)) in
  let c' := (redeem env2 r' cart' user' id st4).2 in
  let st5 := (redeem env2 r' cart' user' id st4).1 in
  outcomeOf c st4 = Some (Rejected (ReasonText TimedOut))
  ∧ outcomeOf c' st5 = Some (Rejected (ReasonText (DuplicateRedeem id)))
  ∧ outstandingRedeems st5 = outstandingRedeems st4
  ∧ resultHandlers st5 = resultHandlers st4
  ∧ unsentQueue st5 = unsentQueue st4
  ∧ wire st5 = wire st4.
Proof.
  intros Hwf Hid Hnone c st1 Hq Ht Hle Hq' st4 c' st5.
  assert (Hc : c = length (calls st)) by apply redeem_index.
  destruct (redeem_awaiting env0 r cart user id st Hwf Hid Hnone) as (Ha & _ & _).
  rewrite <- Hc in Ha. fold st1 in Ha.
  pose proof (run_awaiting evs id c env0 st1 Hq Ht Ha) as Ha2.
  destruct (timeout_rejects envT id c env0 (run evs st1) Hle Ha2)
    as (Hcall3 & Hreg3 & _).
  assert (Hset3 : settledAs c (Rejected (ReasonText TimedOut))
                    (step envT (EvResultTimeout c) (run evs st1))).
  { split; [|done]. unfold outcomeOf. by rewrite Hcall3. }
  pose proof (run_registered evs' id c _ Hq' Hreg3) as [_ Hreg4].
  pose proof (run_settledAs evs' c _ _ Hset3) as [Hset4 _].
  fold st4 in Hreg4, Hset4.
  split; [done|].
  subst c' st5. rewrite (redeem_duplicate env2 r' cart' user' id st4 Hid Hreg4).
  simpl. unfold outcomeOf. simpl.
  by rewrite lookup_app_r, Nat.sub_diag.
Qed.

Lemma timeout_keeps_the_id_taken_witness :
  let st1 := (redeem env_ok (redeem0 None) cart0 user0 "tx-1" st_ready).1 in
  let st4 := run [(env_late, EvTick 1%positive)]
               (step env_late (EvResultTimeout 0) st1) in
  let st5 := (redeem env_late (redeem0 None) cart0 user0 "tx-1" st4).1 in
  outcomeOf 0 st4 = Some (Rejected (ReasonText TimedOut))
  ∧ outcomeOf 1 st5 = Some (Rejected (ReasonText (DuplicateRedeem "tx-1")))
  ∧ outstandingRedeems st5 = outstandingRedeems st4
  ∧ resultHandlers st5 = resultHandlers st4
  ∧ unsentQueue st5 = unsentQueue st4
  ∧ wire st5 = wire st4.
Proof.
  apply (timeout_keeps_the_id_taken env_ok (redeem0 None) cart0 user0 "tx-1"
           st_ready [] env_late [(env_late, EvTick 1%positive)]
           env_late (redeem0 None) cart0 user0).
  - intros g c. vm_compute. discriminate.
  - discriminate.
  - reflexivity.
  - constructor.
  - constructor.
  - vm_compute. discriminate.
  - repeat constructor.
Defined.

(** ** The two flags *)

Ltac send_frame_flags :=
  match goal with
  | |- context [(sendMessage ?e ?m ?s).1] =>
      let H := fresh in
      pose proof (sendMessage_frame e m s) as H; cbv zeta in H;
      destruct H as (-> & _ & _ & _ & _ & _ & _ & _ & _ & -> & _)
  end.

(** What one turn does to the handshake flag and to the in-game status. *)
Lemma step_flags env ev st :
  (clearsHandshake ev = false → handshake st = true →
   handshake (step env ev st) = true)
  ∧ (reportsIngame ev = false → ingame (step env ev st) = ingame st).
Proof.
  destruct ev as [[w|]|ws msg|ws|ws|ws|h|r cart user id|c|m|b];
    try (split; done).
  - split; [done|]. intros _. unfold step.
    by destruct (setSocket_some w st) as (_ & _ & _ & _ & _ & _ & _ & _ & -> & _).
  - unfold step, setSocket.
    destruct (isConnected st); [destruct (socket st)|]; done.
  - unfold step. case_bool_decide; [|done].
    destruct msg as [g ts v|g ts|r|g ts b|tag g ts]; try done.
    + unfold processMessage. by send_frame_flags.
    + unfold processMessage. by send_frame_flags.
    + pose proof (processResult_frame env r st) as F. cbv zeta in F.
      by destruct F as (-> & _ & _ & _ & _ & _ & _ & -> & _).
  - split; [|done]. intros _ Hh. rewrite step_close_any.
    destruct (bool_decide _); [|done].
    by destruct (onClose_effect (set_readyState st (<[ws:=CLOSED]> (readyState st))))
      as (_ & -> & _).
  - unfold step. destruct (intervals st !! h); [|done].
    unfold tryResendFromQueue. destruct (unsentQueue st) as [|m rest]; [done|].
    by send_frame_flags.
  - unfold step, redeem. destruct (String.eqb id EmptyString); [done|]. cbv zeta.
    destruct (outstandingRedeems st !! _); [done|]. cbn [fst].
    by send_frame_flags.
  - unfold step. destruct (calls st !! c) as [call|] eqn:Hc; [|done].
    destruct (_ && _); [|done]. unfold resultTimeout. by rewrite Hc.
  - unfold step. by send_frame_flags.
  - split; [|done]. simpl. by destruct b.
Qed.

(** X16.  A completed handshake outlives the socket it was made on:
    the flag stays true through socket closure, binding null and
    everything else, until a socket is bound or
    [stressTestSetHandshake(false)] is called. *)
Theorem handshake_outlives_the_socket evs st :
  handshake st = true →
  Forall (λ ee, clearsHandshake ee.2 = false) evs →
  handshake (run evs st) = true.
Proof.
  revert st. induction evs as [|[env ev] evs IH]; intros st Hh Hc; simpl; [done|].
  apply Forall_cons in Hc as [Hc Hcs].
  apply IH; [|done]. by apply (step_flags env ev st).
Qed.

Lemma handshake_outlives_the_socket_witness :
  handshake (run [(env_ok, EvClose 1); (env_ok, EvSetSocket None);
                  (env_late, EvTick 1%positive)] st_ready) = true.
Proof.
  apply (handshake_outlives_the_socket
           [(env_ok, EvClose 1); (env_ok, EvSetSocket None);
            (env_late, EvTick 1%positive)] st_ready).
  - reflexivity.
  - repeat constructor.
Defined.

(** X17.  The in-game status is the one the game reported last: after
    an [IngameStateChanged] from a socket the connection listens to, it
    keeps the reported value until the next such message or a socket
    closure, whatever else happens. *)
Theorem ingame_is_last_report env ws g ts b evs st :
  ws ∈ listening st →
  Forall (λ ee, reportsIngame ee.2 = false) evs →
  ingame (run evs (step env (EvMessage ws (GIngameStateChanged g ts b)) st)) = b.
Proof.
  intros Hl Hq.
  assert (H0 : ingame (step env (EvMessage ws (GIngameStateChanged g ts b)) st) = b).
  { simpl. by rewrite bool_decide_eq_true_2. }
  revert H0. generalize (step env (EvMessage ws (GIngameStateChanged g ts b)) st).
  induction evs as [|[env' ev] evs IH]; intros st' H0; simpl; [done|].
  apply Forall_cons in Hq as [Hq Hqs].
  apply IH; [done|]. rewrite <- H0. by apply (step_flags env' ev st').
Qed.

Lemma ingame_is_last_report_witness :
  ingame (run [(env_ok, EvRedeem (redeem0 None) cart0 user0 "tx-1");
               (env_ok, EvSetSocket (Some 2))]
              (step env_ok (EvMessage 1 (GIngameStateChanged "i1" 1100 true))
                    st_ready)) = true.
Proof.
  apply (ingame_is_last_report env_ok 1 "i1" 1100 true
           [(env_ok, EvRedeem (redeem0 None) cart0 user0 "tx-1");
            (env_ok, EvSetSocket (Some 2))] st_ready).
  - vm_compute. constructor 1.
  - repeat constructor.
Defined.
